(** * statsd exporter: line parser, name escaping and event dispatch

    A shallow embedding of [exporter.go].  Go strings are byte sequences,
    Go [int]s are integers, [float64] is the primitive binary64 float.  A
    run-time panic (a slice expression out of range) is the [None] of the
    option monad; the telemetry counters are a log of the [Inc] calls made,
    oldest first. *)

From Stdlib Require Import ZArith List Ascii String Bool Lia Sorted.
From Stdlib Require Import Uint63 PrimFloat FloatOps SpecFloat.
From stdpp Require Import base option gmap strings.
Import ListNotations.

Local Open Scope Z_scope.

(** ** Go strings *)

(** A Go string is an immutable sequence of bytes. *)
Abbreviation gostring := (list ascii).

Definition str (s : string) : gostring := list_ascii_of_string s.

Definition byteval (b : ascii) : Z := Z.of_N (N_of_ascii b).

Definition chr (c : Z) : ascii := ascii_of_N (Z.to_N c).

(** [len(s)] *)
Definition len {A : Type} (s : list A) : Z := Z.of_nat (length s).

(** [s[lo:hi]]; Go panics unless [0 <= lo <= hi <= len(s)]. *)
Definition slice (s : gostring) (lo hi : Z) : option gostring :=
  if (0 <=? lo) && (lo <=? hi) && (hi <=? len s)
  then Some (firstn (Z.to_nat (hi - lo)) (skipn (Z.to_nat lo) s))
  else None.

(** [s[i]]; Go panics unless [0 <= i < len(s)]. *)
Definition byte_at (s : gostring) (i : Z) : option ascii :=
  if (0 <=? i) && (i <? len s) then nth_error s (Z.to_nat i) else None.

(** [s[lo:]] *)
Definition slice_from (s : gostring) (lo : Z) : option gostring :=
  slice s lo (len s).

(** [s[:hi]] *)
Definition slice_to (s : gostring) (hi : Z) : option gostring :=
  slice s 0 hi.

(** ** Package [unicode/utf8] and [range] over a string *)

Module utf8.

Definition RuneError : Z := 0xFFFD.

(** A continuation byte, [0x80..0xBF]. *)
Definition cont (x : Z) : bool := (0x80 <=? x) && (x <=? 0xBF).

(** Range accepted for the second byte, by leading byte:  [E0] excludes
    overlong forms, [ED] the surrogates, [F0] overlong forms and [F4]
    code points above [U+10FFFF]. *)
Definition second (x0 x1 : Z) : bool :=
  if x0 =? 0xE0 then (0xA0 <=? x1) && (x1 <=? 0xBF)
  else if x0 =? 0xED then (0x80 <=? x1) && (x1 <=? 0x9F)
  else if x0 =? 0xF0 then (0x90 <=? x1) && (x1 <=? 0xBF)
  else if x0 =? 0xF4 then (0x80 <=? x1) && (x1 <=? 0x8F)
  else cont x1.

(** [DecodeRuneInString]: the first rune of [s] and its width in bytes.
    An invalid or truncated encoding yields [(RuneError, 1)], the empty
    string [(RuneError, 0)]. *)
Definition DecodeRuneInString (s : gostring) : Z * Z :=
  match s with
  | [] => (RuneError, 0)
  | b0 :: t0 =>
    let x0 := byteval b0 in
    if x0 <? 0x80 then (x0, 1)
    else if (0xC2 <=? x0) && (x0 <=? 0xDF) then
      match t0 with
      | b1 :: _ =>
        let x1 := byteval b1 in
        if cont x1 then ((x0 - 0xC0) * 64 + (x1 - 0x80), 2)
        else (RuneError, 1)
      | _ => (RuneError, 1)
      end
    else if (0xE0 <=? x0) && (x0 <=? 0xEF) then
      match t0 with
      | b1 :: b2 :: _ =>
        let x1 := byteval b1 in
        let x2 := byteval b2 in
        if second x0 x1 && cont x2
        then ((x0 - 0xE0) * 4096 + (x1 - 0x80) * 64 + (x2 - 0x80), 3)
        else (RuneError, 1)
      | _ => (RuneError, 1)
      end
    else if (0xF0 <=? x0) && (x0 <=? 0xF4) then
      match t0 with
      | b1 :: b2 :: b3 :: _ =>
        let x1 := byteval b1 in
        let x2 := byteval b2 in
        let x3 := byteval b3 in
        if second x0 x1 && cont x2 && cont x3
        then ((x0 - 0xF0) * 262144 + (x1 - 0x80) * 4096
              + (x2 - 0x80) * 64 + (x3 - 0x80), 4)
        else (RuneError, 1)
      | _ => (RuneError, 1)
      end
    else (RuneError, 1)
  end.

(** [RuneLen]: the number of bytes needed to encode the rune, [-1] if it
    is not a valid value to encode. *)
Definition RuneLen (r : Z) : Z :=
  if r <? 0 then -1
  else if r <=? 0x7F then 1
  else if r <=? 0x7FF then 2
  else if (0xD800 <=? r) && (r <=? 0xDFFF) then -1
  else if r <=? 0xFFFF then 3
  else if r <=? 0x10FFFF then 4
  else -1.

(** One iteration of [for i, c := range s]: byte index, rune, and the
    width the loop advances by. *)
Record entry := Entry { index : Z; rune : Z; width : Z }.

(** The iterations of [for i, c := range s] over the bytes [s] that start
    at index [i]; [skip] bytes still belong to the previous rune. *)
Fixpoint range_from (i : Z) (skip : nat) (s : gostring) : list entry :=
  match s with
  | [] => []
  | _ :: t =>
    match skip with
    | S k => range_from (i + 1) k t
    | O =>
      let '(c, w) := DecodeRuneInString s in
      Entry i c w :: range_from (i + 1) (Z.to_nat (w - 1)) t
    end
  end.

Definition range (s : gostring) : list entry := range_from 0 0 s.

(** [ValidString]: [s] consists entirely of valid UTF-8 encoded runes,
    that is, no decoding step reports an error of width 1. *)
Definition ValidString (s : gostring) : bool :=
  forallb (fun e => negb ((rune e =? RuneError) && (width e =? 1)))
          (range s).

End utf8.

(** ** Package [strings], for the one-byte separators the exporter uses *)

Module strings.

(** [HasPrefix(s, prefix)] *)
Fixpoint HasPrefix (s prefix : gostring) : bool :=
  match prefix, s with
  | [], _ => true
  | p :: prefix', c :: s' => Ascii.eqb p c && HasPrefix s' prefix'
  | _ :: _, [] => false
  end.

(** [Index(s, substr)]: byte index of the first instance, or [-1]. *)
Fixpoint Index (s substr : gostring) : Z :=
  if HasPrefix s substr then 0
  else match s with
       | [] => -1
       | _ :: s' => let r := Index s' substr in
                    if r <? 0 then -1 else r + 1
       end.

(** [Contains(s, substr)] *)
Definition Contains (s substr : gostring) : bool := 0 <=? Index s substr.

(** [Split(s, sep)] for a separator of one byte: the substrings between
    the separators; always at least one element. *)
Fixpoint Split (s : gostring) (sep : ascii) : list gostring :=
  match s with
  | [] => [[]]
  | c :: s' =>
    if Ascii.eqb c sep then [] :: Split s' sep
    else match Split s' sep with
         | [] => [[c]]
         | x :: xs => (c :: x) :: xs
         end
  end.

(** [SplitN(s, sep, 2)] for a separator of one byte: cut at the first
    separator, if any. *)
Fixpoint SplitN2 (s : gostring) (sep : ascii) : list gostring :=
  match s with
  | [] => [[]]
  | c :: s' =>
    if Ascii.eqb c sep then [[]; s']
    else match SplitN2 s' sep with
         | x :: xs => (c :: x) :: xs
         | [] => [[c]]
         end
  end.

End strings.

(** ** [escapeMetricName] *)

Definition is_digit (x : Z) : bool := (48 <=? x) && (x <=? 57).

(** The loop's test: [a-z], [A-Z], [0-9] or [_]. *)
Definition valid_char (c : Z) : bool :=
  ((97 <=? c) && (c <=? 122)) || ((65 <=? c) && (c <=? 90))
  || ((48 <=? c) && (c <=? 57)) || (c =? 95).

(** The variables of the loop: [escaped], the [strings.Builder] and
    [offset]. *)
Record escaper := Escaper { escaped : bool; sb : gostring; offset : Z }.

(** Body of [for i, c := range metricName]. *)
Definition escape_step (metricName : gostring) (st : option escaper)
    (e : utf8.entry) : option escaper :=
  st ← st;
  if valid_char (utf8.rune e) then Some st
  else
    chunk ← slice metricName (offset st) (utf8.index e);
    Some (Escaper true (sb st ++ chunk ++ str "_")
                  (utf8.index e + utf8.RuneLen (utf8.rune e))).

Definition escapeMetricName (metricName : gostring) : option gostring :=
  let metricLen := len metricName in
  if metricLen =? 0 then Some []
  else
    b0 ← byte_at metricName 0;
    let st0 := if is_digit (byteval b0) then Escaper true (str "_") 0
               else Escaper false [] 0 in
    st ← fold_left (escape_step metricName) (utf8.range metricName) (Some st0);
    if negb (escaped st) then Some metricName
    else if offset st <? metricLen
         then tail ← slice_from metricName (offset st); Some (sb st ++ tail)
         else Some (sb st).

(** ** [float64] and its conversion to [int] *)

(** The integer part of a finite float (rounding toward zero). *)
Definition float64_trunc (x : float) : option Z :=
  match Prim2SF x with
  | S754_zero _ => Some 0
  | S754_finite s m e =>
    Some (if s then - Z.shiftl (Z.pos m) e else Z.shiftl (Z.pos m) e)
  | _ => None
  end.


(** The values of a 64-bit [int]. *)
Definition is_int (z : Z) : bool := (- 2 ^ 63 <=? z) && (z <? 2 ^ 63).

(** ** Events *)

Abbreviation Labels := (gmap (list ascii) (list ascii)).

(** [CounterEvent], [GaugeEvent] and [TimerEvent], with the fields
    [buildEvent] fills. *)
Inductive Event :=
| CounterEvent (metricName : gostring) (value : float) (labels : Labels)
| GaugeEvent (metricName : gostring) (value : float) (relative : bool)
             (labels : Labels)
| TimerEvent (metricName : gostring) (value : float) (labels : Labels).

Abbreviation Events := (list Event).

Definition streq (a b : gostring) : bool := bool_decide (a = b).

Definition is_timer_type (statType : gostring) : bool :=
  streq statType (str "ms") || streq statType (str "h")
  || streq statType (str "d").

(** [buildEvent]; the error is its message. *)
Definition buildEvent (statType metric : gostring) (value : float)
    (relative : bool) (labels : Labels) : Event + gostring :=
  if streq statType (str "c") then inl (CounterEvent metric value labels)
  else if streq statType (str "g")
  then inl (GaugeEvent metric value relative labels)
  else if is_timer_type statType then inl (TimerEvent metric value labels)
  else if streq statType (str "s")
  then inr (str "no support for StatsD sets")
  else inr (str "bad stat type " ++ statType).

(** ** Telemetry *)

(** The exporter's own counters; a counter vector carries its label value. *)
Inductive Metric :=
| udpPackets
| unixgramPackets
| linesReceived
| samplesReceived
| tagsReceived
| tagErrors
| sampleErrors (reason : string)
| eventStats (type : string)
| eventsActions (action : string)
| eventsUnmapped
| conflictingEventStats (type : string)
| errorEventStats (reason : string).

Global Instance Metric_eq_dec : EqDecision Metric.
Proof. solve_decision. Defined.

(** How many times a counter was incremented in a log of [Inc] calls. *)
Definition count (m : Metric) (log : list Metric) : nat :=
  length (List.filter (fun x => bool_decide (x = m)) log).

(** What a line leaves behind while it is parsed: the [labels] map the
    events of the line share, the events appended so far and the counters
    incremented so far. *)
Record env := Env { labels : Labels; events : Events; telemetry : list Metric }.

Definition inc (m : Metric) (st : env) : env :=
  Env (labels st) (events st) (telemetry st ++ [m]).

Definition set_label (k v : gostring) (st : env) : env :=
  Env (<[k := v]> (labels st)) (events st) (telemetry st).

Definition append_event (ev : Event) (st : env) : env :=
  Env (labels st) (events st ++ [ev]) (telemetry st).

(** ** Tags *)

(** [parseTag]; [component] and the logger only feed the debug log. *)
Definition parseTag (tag : gostring) (separator : Z) (st : env) : option env :=
  if len tag =? 0 then Some (inc tagErrors st)
  else
    match find (fun e => utf8.rune e =? separator) (utf8.range tag) with
    | Some e =>
      let i := utf8.index e in
      k ← slice_to tag i;
      v ← slice_from tag (i + 1);
      if (len k =? 0) || (len v =? 0) then Some (inc tagErrors st)
      else k' ← escapeMetricName k; Some (set_label k' v st)
    | None => Some (inc tagErrors st)
    end.

(** The variables of the tag loops: [lastTagEndIndex] and the labels and
    counters. *)
Record tagscan := TagScan { lastTagEndIndex : Z; scanned : env }.

Definition parseNameTags_step (component : gostring) (sc : option tagscan)
    (e : utf8.entry) : option tagscan :=
  sc ← sc;
  if utf8.rune e =? 44 then
    tag ← slice component (lastTagEndIndex sc) (utf8.index e);
    st ← parseTag tag 61 (scanned sc);
    Some (TagScan (utf8.index e + 1) st)
  else Some sc.

Definition parseNameTags (component : gostring) (st : env) : option env :=
  sc ← fold_left (parseNameTags_step component) (utf8.range component)
                 (Some (TagScan 0 st));
  if lastTagEndIndex sc <? len component then
    tag ← slice_from component (lastTagEndIndex sc);
    parseTag tag 61 (scanned sc)
  else Some (scanned sc).

Definition trimLeftHash (s : gostring) : option gostring :=
  if negb (streq s []) then
    b0 ← byte_at s 0;
    if byteval b0 =? 35 then slice_from s 1 else Some s
  else Some s.

Definition parseDogStatsDTags_step (component : gostring)
    (sc : option tagscan) (e : utf8.entry) : option tagscan :=
  sc ← sc;
  if utf8.rune e =? 44 then
    tag ← slice component (lastTagEndIndex sc) (utf8.index e);
    tag' ← trimLeftHash tag;
    st ← parseTag tag' 58 (scanned sc);
    Some (TagScan (utf8.index e + 1) st)
  else Some sc.

Definition parseDogStatsDTags (component : gostring) (st : env) : option env :=
  sc ← fold_left (parseDogStatsDTags_step component) (utf8.range component)
                 (Some (TagScan 0 st));
  if lastTagEndIndex sc <? len component then
    tag ← slice_from component (lastTagEndIndex sc);
    tag' ← trimLeftHash tag;
    parseTag tag' 58 (scanned sc)
  else Some (scanned sc).

(** [parseNameAndTags]: the name before the first [#] or [,], the tags
    after it parsed into the labels. *)
Definition parseNameAndTags (name : gostring) (st : env)
    : option (gostring * env) :=
  match find (fun e => (utf8.rune e =? 35) || (utf8.rune e =? 44))
             (utf8.range name) with
  | Some e =>
    tags ← slice_from name (utf8.index e + 1);
    st' ← parseNameTags tags st;
    metric ← slice_to name (utf8.index e);
    Some (metric, st')
  | None => Some (name, st)
  end.

(** ** [strconv.ParseFloat], decimal fragment *)

(** The digits of [s] read as a decimal number on top of [acc], with the
    count of digits read; [None] if a byte is not a digit. *)
Fixpoint read_digits (s : gostring) (acc : Z) (n : Z) : option (Z * Z) :=
  match s with
  | [] => Some (acc, n)
  | b :: s' =>
    if is_digit (byteval b)
    then read_digits s' (acc * 10 + (byteval b - 48)) (n + 1)
    else None
  end.

Definition float_of_Z (z : Z) : float := of_uint63 (Uint63.of_Z z).

(** A [ParseFloat] to run the parser on concrete lines.  It agrees with
    [strconv.ParseFloat(s, 64)] on the plain decimals [[+-]digits[.digits]]
    of at most 15 digits, where the nearest float is the quotient of two
    exact floats, and reports every other string as an error with value 0,
    which is what Go does for a string that is no number at all.  The
    other forms Go accepts (exponents, hexadecimal floats, [inf], [nan],
    underscores, longer mantissas) are not modelled; the properties below
    hold for every [ParseFloat]. *)
Definition ParseFloat_decimal (s : gostring) : float * bool :=
  let '(neg, body) :=
    match s with
    | b :: s' => if byteval b =? 45 then (true, s')
                 else if byteval b =? 43 then (false, s') else (false, s)
    | [] => (false, s)
    end in
  let parts := strings.Split body "."%char in
  let parsed :=
    match parts with
    | [ip] => m ← read_digits ip 0 0; Some (fst m, snd m, 0)
    | [ip; fp] =>
      m ← read_digits ip 0 0;
      m' ← read_digits fp (fst m) (snd m);
      Some (fst m', snd m', len fp)
    | _ => None
    end in
  match parsed with
  | Some (mant, ndigits, k) =>
    if (1 <=? ndigits) && (ndigits <=? 15) then
      let f := float_of_Z mant in
      let f := if neg then PrimFloat.opp f else f in
      (if k =? 0 then f else PrimFloat.div f (float_of_Z (10 ^ k)), false)
    else (PrimFloat.zero, true)
  | None => (PrimFloat.zero, true)
  end.

(** ** The line parser *)

Section Exporter.

(** [strconv.ParseFloat(s, 64)]: the float and whether [err != nil]. *)
Variable ParseFloat : gostring -> float * bool.

(** What [int(x)] gives when the integer part of [x] is not an [int] (or
    [x] is not finite): the language leaves it to the implementation. *)
Variable unrepresentable : float -> Z.

(** The conversion [int(x)]. *)
Definition int_of_float64 (x : float) : Z :=
  match float64_trunc x with
  | Some z => if is_int z then z else unrepresentable x
  | None => unrepresentable x
  end.

(** The variables a sample's suffix components update. *)
Record sampler :=
  Sampler { s_value : float; s_multiplyEvents : Z; s_env : env }.

(** Body of the second [for _, component := range components[2:]]. *)
Definition component_step (statType : gostring) (sm : option sampler)
    (component : gostring) : option sampler :=
  sm ← sm;
  c0 ← byte_at component 0;
  if byteval c0 =? 64 then
    rest ← slice_from component 1;
    let '(f, err) := ParseFloat rest in
    let st := if err then inc (sampleErrors "invalid_sample_factor") (s_env sm)
              else s_env sm in
    let samplingFactor := if PrimFloat.eqb f 0 then 1%float else f in
    if streq statType (str "g")
    then Some (Sampler (s_value sm) (s_multiplyEvents sm) st)
    else if streq statType (str "c")
    then Some (Sampler (PrimFloat.div (s_value sm) samplingFactor)
                       (s_multiplyEvents sm) st)
    else if is_timer_type statType
    then Some (Sampler (s_value sm)
                       (int_of_float64 (PrimFloat.div 1 samplingFactor)) st)
    else Some (Sampler (s_value sm) (s_multiplyEvents sm) st)
  else if byteval c0 =? 35 then
    rest ← slice_from component 1;
    st ← parseDogStatsDTags rest (s_env sm);
    Some (Sampler (s_value sm) (s_multiplyEvents sm) st)
  else
    Some (Sampler (s_value sm) (s_multiplyEvents sm)
                  (inc (sampleErrors "invalid_sample_factor") (s_env sm))).

(** [for i := 0; i < multiplyEvents; i++], [n] iterations. *)
Fixpoint emit (n : nat) (statType metric : gostring) (value : float)
    (relative : bool) (st : env) : env :=
  match n with
  | O => st
  | S n' =>
    emit n' statType metric value relative
         (match buildEvent statType metric value relative (labels st) with
          | inl event => append_event event st
          | inr _ => inc (sampleErrors "illegal_event") st
          end)
  end.

(** Body of [for _, sample := range samples]. *)
Definition sample_step (metric : gostring) (st : option env)
    (sample : gostring) : option env :=
  st ← st;
  let st := inc samplesReceived st in
  let components := strings.Split sample "|"%char in
  if (len components <? 2) || (4 <? len components)
  then Some (inc (sampleErrors "malformed_component") st)
  else
    valueStr ← nth_error components 0;
    statType ← nth_error components 1;
    let relative := (strings.Index valueStr (str "+") =? 0)
                    || (strings.Index valueStr (str "-") =? 0) in
    let '(value, err) := ParseFloat valueStr in
    if err then Some (inc (sampleErrors "malformed_value") st)
    else if (3 <=? len components)
            && existsb (fun component => len component =? 0) (skipn 2 components)
    then Some (inc (sampleErrors "malformed_component") st)
    else
      sm ← (if 3 <=? len components
            then fold_left (component_step statType) (skipn 2 components)
                           (Some (Sampler value 1 st))
            else Some (Sampler value 1 st));
      let st := s_env sm in
      let st := if 0 <? Z.of_nat (size (labels st)) then inc tagsReceived st
                else st in
      Some (emit (Z.to_nat (s_multiplyEvents sm)) statType metric (s_value sm)
                 relative st).

(** [lineToEvents]: the events of the line and the counters incremented. *)
Definition lineToEvents (line : gostring) : option (Events * list Metric) :=
  if streq line [] then Some ([], [])
  else
    let malformed := Some ([], [sampleErrors "malformed_line"]) in
    match strings.SplitN2 line ":"%char with
    | name :: rest :: _ =>
      if (len name =? 0) || negb (utf8.ValidString line) then malformed
      else
        '(metric, st) ← parseNameAndTags name (Env ∅ [] []);
        if strings.Contains rest (str "|#") then
          if 0 <? Z.of_nat (size (labels st))
          then Some ([], telemetry st ++ [sampleErrors "mixed_tagging_styles"])
          else
            st' ← fold_left (sample_step metric) [rest] (Some st);
            Some (events st', telemetry st')
        else
          st' ← fold_left (sample_step metric) (strings.Split rest ":"%char)
                          (Some st);
          Some (events st', telemetry st')
    | _ => malformed
    end.

(** [handlePacket] of the UDP and unixgram listeners: the batches queued,
    one per line, and the counters incremented; [first] is the listener's
    packet counter. *)
Definition handlePacket (first : Metric) (packet : gostring)
    : option (list Events * list Metric) :=
  fold_left
    (fun acc line =>
       '(queued, log) ← acc;
       '(evs, log') ← lineToEvents line;
       Some (queued ++ [evs], log ++ [linesReceived] ++ log'))
    (strings.Split packet "010"%char)
    (Some ([], [first])).

End Exporter.

(** ** The exporter *)

Definition defaultHelp : gostring :=
  str "Metric autogenerated by statsd_exporter.".

(** Modelled from the spec: package [mapper] is not part of the sources.
    The output kind for timers is summary, histogram or default; any other
    configured name is an unknown kind. *)
Inductive TimerType :=
| TimerTypeDefault
| TimerTypeHistogram
| TimerTypeSummary
| TimerTypeUnknown (name : string).

Global Instance TimerType_eq_dec : EqDecision TimerType.
Proof. solve_decision. Defined.

(** Modelled from the spec: the mapper's actions, [map] or [drop], as the
    strings they are reported under. *)
Definition ActionType := string.
Definition ActionTypeDrop : ActionType := "drop"%string.

(** Modelled from the spec: the type an event is looked up under. *)
Inductive MetricType := MetricTypeCounter | MetricTypeGauge | MetricTypeTimer.

(** Modelled from the spec: the fields of a mapping [handleEvent] reads. *)
Record MetricMapping := {
  Name : gostring;
  Action : ActionType;
  HelpText : gostring;
  TimerType_ : TimerType;
  Ttl : Z
}.

(** Modelled from the spec: the mapper's global defaults. *)
Record MapperDefaults := { DefaultTtl : Z; DefaultTimerType : TimerType }.

(** Modelled from the spec: the accessors of an event. *)
Definition MetricName (e : Event) : gostring :=
  match e with
  | CounterEvent n _ _ | GaugeEvent n _ _ _ | TimerEvent n _ _ => n
  end.

Definition EventMetricType (e : Event) : MetricType :=
  match e with
  | CounterEvent _ _ _ => MetricTypeCounter
  | GaugeEvent _ _ _ _ => MetricTypeGauge
  | TimerEvent _ _ _ => MetricTypeTimer
  end.

Definition Value (e : Event) : float :=
  match e with
  | CounterEvent _ v _ | GaugeEvent _ v _ _ | TimerEvent _ v _ => v
  end.

Definition EventLabels (e : Event) : Labels :=
  match e with
  | CounterEvent _ _ l | GaugeEvent _ _ _ l | TimerEvent _ _ l => l
  end.

Section Dispatch.

(** The mapper: [GetMapping] (a nil mapping is [None]) and [Defaults]. *)
Variable GetMapping :
  gostring -> MetricType -> option MetricMapping * Labels * bool.
Variable Defaults : MapperDefaults.

(** The registry, whose code is not part of the sources: its state, the
    metric objects it hands out, and its four lookups, which return the
    object or an error ([None]). *)
Variable registry : Type.
Variable collector : Type.
Variable getCounter getGauge getHistogram getSummary :
  registry -> gostring -> Labels -> gostring -> MetricMapping
  -> registry * option collector.

(** A call on a metric object. *)
Inductive Call :=
| Add (c : collector) (v : float)
| Set_ (c : collector) (v : float)
| Observe (c : collector) (v : float).

(** What the exporter acts on: the registry, the counters incremented and
    the calls made on metric objects, oldest first. *)
Record world := World {
  registry_of : registry;
  counters : list Metric;
  calls : list Call
}.

Definition incr (m : Metric) (w : world) : world :=
  World (registry_of w) (counters w ++ [m]) (calls w).

(** How [handleEvent] ends: it returns, or the process exits. *)
Inductive outcome := Returned (w : world) | Exited (code : Z) (w : world).

(** A registry lookup followed by the update [call] on the object found;
    an error counts a conflict. *)
Definition update
    (get : registry -> gostring -> Labels -> gostring -> MetricMapping
           -> registry * option collector)
    (metricName : gostring) (prometheusLabels : Labels) (help : gostring)
    (mapping : MetricMapping) (call : collector -> Call) (type : string)
    (w : world) : world :=
  match get (registry_of w) metricName prometheusLabels help mapping with
  | (r, Some c) =>
    World r (counters w ++ [eventStats type]) (calls w ++ [call c])
  | (r, None) =>
    World r (counters w ++ [conflictingEventStats type]) (calls w)
  end.

(** [handleEvent].  After the first test [mapping] is never nil, so the
    later test [mapping != nil] of the timer case always holds; the three
    kinds of [Event] are all there are, so the [default] case of the type
    switch is not reached.  The merge of the mapper's labels writes into
    the map of the event, which the events of one line share: here one
    event is handled at a time and its labels are a value. *)
Definition handleEvent (b : world) (event : Event) : option outcome :=
  let '(found, labels, present) :=
    GetMapping (MetricName event) (EventMetricType event) in
  let mapping :=
    match found with
    | Some m => m
    | None =>
      {| Name := []; Action := ""; HelpText := []; TimerType_ := TimerTypeDefault;
         Ttl := if negb (DefaultTtl Defaults =? 0) then DefaultTtl Defaults else 0 |}
    end in
  if bool_decide (Action mapping = ActionTypeDrop)
  then Some (Returned (incr (eventsActions "drop") b))
  else
    let help := if negb (streq (HelpText mapping) []) then HelpText mapping
                else defaultHelp in
    let prometheusLabels := EventLabels event in
    if present && streq (Name mapping) []
    then Some (Returned (incr (errorEventStats "empty_metric_name") b))
    else
      metricName ← escapeMetricName
                     (if present then Name mapping else MetricName event);
      let prometheusLabels :=
        if present then labels ∪ prometheusLabels else prometheusLabels in
      let b := if present then incr (eventsActions (Action mapping)) b
               else incr eventsUnmapped b in
      match event with
      | CounterEvent _ _ _ =>
        if PrimFloat.ltb (Value event) 0
        then Some (Returned (incr (errorEventStats "illegal_negative_counter") b))
        else Some (Returned (update getCounter metricName prometheusLabels help
                                    mapping (fun c => Add c (Value event))
                                    "counter" b))
      | GaugeEvent _ _ relative _ =>
        Some (Returned (update getGauge metricName prometheusLabels help mapping
                               (fun c => if relative then Add c (Value event)
                                         else Set_ c (Value event))
                               "gauge" b))
      | TimerEvent _ _ _ =>
        let t := TimerType_ mapping in
        let t := if bool_decide (t = TimerTypeDefault)
                 then DefaultTimerType Defaults else t in
        match t with
        | TimerTypeHistogram =>
          Some (Returned (update getHistogram metricName prometheusLabels help
                                 mapping
                                 (fun c => Observe c (PrimFloat.div (Value event) 1000))
                                 "timer" b))
        | TimerTypeDefault | TimerTypeSummary =>
          Some (Returned (update getSummary metricName prometheusLabels help
                                 mapping
                                 (fun c => Observe c (PrimFloat.div (Value event) 1000))
                                 "timer" b))
        | TimerTypeUnknown _ => Some (Exited 1 b)
        end
      end.

End Dispatch.

Arguments Add {collector}.
Arguments Set_ {collector}.
Arguments Observe {collector}.
Arguments World {registry collector}.
Arguments registry_of {registry collector}.
Arguments counters {registry collector}.
Arguments calls {registry collector}.
Arguments incr {registry collector}.
Arguments Returned {registry collector}.
Arguments Exited {registry collector}.
Arguments update {registry collector}.
Arguments handleEvent GetMapping Defaults {registry collector}.

(** ** Specification-side definitions *)

(** Well-formed UTF-8, by the shape of the encoding: a string of encoded
    runes of one to four bytes. *)
Inductive Valid : gostring -> Prop :=
| Valid_nil : Valid []
| Valid_1 b0 s :
    byteval b0 < 0x80 -> Valid s -> Valid (b0 :: s)
| Valid_2 b0 b1 s :
    0xC2 <= byteval b0 <= 0xDF -> utf8.cont (byteval b1) = true ->
    Valid s -> Valid (b0 :: b1 :: s)
| Valid_3 b0 b1 b2 s :
    0xE0 <= byteval b0 <= 0xEF ->
    utf8.second (byteval b0) (byteval b1) = true ->
    utf8.cont (byteval b2) = true ->
    Valid s -> Valid (b0 :: b1 :: b2 :: s)
| Valid_4 b0 b1 b2 b3 s :
    0xF0 <= byteval b0 <= 0xF4 ->
    utf8.second (byteval b0) (byteval b1) = true ->
    utf8.cont (byteval b2) = true -> utf8.cont (byteval b3) = true ->
    Valid s -> Valid (b0 :: b1 :: b2 :: b3 :: s).

(** A byte of the identifier class [[A-Za-z0-9_]]. *)
Definition ident (b : ascii) : Prop := valid_char (byteval b) = true.

(** The string does not start with a digit. *)
Definition no_leading_digit (s : gostring) : Prop :=
  match s with
  | [] => True
  | b :: _ => is_digit (byteval b) = false
  end.

(** What a rune of the name becomes: itself if it is of the identifier
    class, one underscore otherwise. *)
Definition replace_rune (e : utf8.entry) : gostring :=
  if valid_char (utf8.rune e) then [chr (utf8.rune e)] else str "_".

(** The escaping as the specification words it: an underscore in front of a
    leading digit, then every rune of the name replaced on its own. *)
Definition escape_spec (n : gostring) : gostring :=
  (match n with
   | b :: _ => if is_digit (byteval b) then str "_" else []
   | [] => []
   end) ++ flat_map replace_rune (utf8.range n).

(** A decoding step that is not an error. *)
Definition rune_ok (e : utf8.entry) : bool :=
  negb ((utf8.rune e =? utf8.RuneError) && (utf8.width e =? 1)).

(** Between two iterations of the loop of [escapeMetricName] over any name
    [s], of which [pre] was read and [skip] bytes are still to be passed
    over: the bytes written and the bytes pending since [offset] are of the
    identifier class, and what was written does not start with a digit. *)
Record esc_inv (s pre : gostring) (skip : nat) (st : escaper) : Prop := {
  inv_off : 0 <= offset st;
  inv_tail : Forall ident (skipn (Z.to_nat (offset st)) pre);
  inv_sb : Forall ident (sb st);
  inv_lazy : escaped st = false ->
             sb st = [] /\ offset st = 0 /\ no_leading_digit s;
  inv_head : escaped st = true -> sb st <> [] /\ no_leading_digit (sb st);
  inv_skip : skip = 0%nat \/ len pre + Z.of_nat skip <= offset st
}.

(** Between two iterations on a well-formed name: what was written, with
    the valid bytes seen since [offset], is the escaping [acc] of the
    prefix [pre] read so far. *)
Definition esc_valid_inv (pre : gostring) (st : escaper) (acc : gostring)
    : Prop :=
  0 <= offset st <= len pre
  /\ if escaped st then sb st ++ skipn (Z.to_nat (offset st)) pre = acc
     else sb st = [] /\ offset st = 0 /\ pre = acc.

(** The order of the iterations of [range]. *)
Definition index_lt (a b : utf8.entry) : Prop := utf8.index a < utf8.index b.

(** The two tag loops differ by the handler of a tag only. *)
Definition tags_step (h : gostring -> env -> option env)
    (component : gostring) (sc : option tagscan) (e : utf8.entry)
    : option tagscan :=
  sc ← sc;
  if utf8.rune e =? 44 then
    tag ← slice component (lastTagEndIndex sc) (utf8.index e);
    st ← h tag (scanned sc);
    Some (TagScan (utf8.index e + 1) st)
  else Some sc.

(** The conditions the specification lists for a malformed line: fewer
    than two colon-separated parts, an empty name part, or invalid
    UTF-8. *)
Definition malformed_line (line : gostring) : Prop :=
  len (strings.Split line ":"%char) < 2
  \/ hd [] (strings.Split line ":"%char) = []
  \/ utf8.ValidString line = false.

(** The mapping [handleEvent] works with: the one found, or an empty one
    that inherits the default TTL. *)
Definition mapping_of (Defaults : MapperDefaults)
    (found : option MetricMapping) : MetricMapping :=
  match found with
  | Some m => m
  | None =>
    {| Name := []; Action := ""; HelpText := []; TimerType_ := TimerTypeDefault;
       Ttl := if negb (DefaultTtl Defaults =? 0) then DefaultTtl Defaults else 0 |}
  end.

(** The kind a timer is observed as, as the specification words it: the
    mapping's timer type if set, else the defaults', else summary. *)
Definition effective_timer_type (Defaults : MapperDefaults)
    (mapping : MetricMapping) : TimerType :=
  match TimerType_ mapping with
  | TimerTypeDefault =>
    match DefaultTimerType Defaults with
    | TimerTypeDefault => TimerTypeSummary
    | t => t
    end
  | t => t
  end.

(** The event passes the mapping: it is not dropped, and a mapping that
    matched gives it a name. *)
Definition dispatched (mapping : MetricMapping) (present : bool) : Prop :=
  Action mapping <> ActionTypeDrop /\ (present = true -> Name mapping <> []).

(** The counter that records the mapping's decision. *)
Definition action_counter (mapping : MetricMapping) (present : bool) : Metric :=
  if present then eventsActions (Action mapping) else eventsUnmapped.

(** The help text: the mapping's, or the default one. *)
Definition help_of (mapping : MetricMapping) : gostring :=
  if negb (streq (HelpText mapping) []) then HelpText mapping else defaultHelp.

(** A mapper without rules, a registry that counts its lookups and hands
    out the metric's name. *)
Definition no_mapping (_ : gostring) (_ : MetricType)
    : option MetricMapping * Labels * bool := (None, ∅, false).

(** Defaults that set no TTL and no timer type. *)
Definition plain_defaults : MapperDefaults :=
  {| DefaultTtl := 0; DefaultTimerType := TimerTypeDefault |}.

(** A registry lookup that counts the lookups and hands out the name. *)
Definition counting_get (r : nat) (metricName : gostring) (_ : Labels)
    (_ : gostring) (_ : MetricMapping) : nat * option gostring :=
  (S r, Some metricName).


(** Whether a value string makes a gauge relative. *)
Definition relative_of (valueStr : gostring) : bool :=
  (strings.Index valueStr (str "+") =? 0)
  || (strings.Index valueStr (str "-") =? 0).

(** The count of [tags_received] before the events of a sample are built. *)
Definition tagged (st : env) : env :=
  if 0 <? Z.of_nat (size (labels st)) then inc tagsReceived st else st.



(** A counter other than [sample_errors{malformed_line}]. *)
Definition quiet (m : Metric) : Prop := m <> sampleErrors "malformed_line".

(** [st'] counts what [st] counts, and besides that only counters other
    than [malformed_line]. *)
Definition extends (st st' : env) : Prop :=
  exists added, telemetry st' = telemetry st ++ added /\ Forall quiet added.

(** ** Specification-side definitions for the parser *)

(** A byte that is not ASCII. *)
Definition high (b : ascii) : Prop := 0x80 <= byteval b.

(** The tags the tag loops hand to [parseTag]: the pieces of the component
    between its commas, without the empty piece after a final comma (or of
    an empty component). *)
Definition tags_of (component : gostring) : list gostring :=
  let pieces := strings.Split component ","%char in
  match List.last pieces [] with
  | [] => List.removelast pieces
  | _ => pieces
  end.

(** The end of a tag loop: the tag after the last comma, if any. *)
Definition tags_finish (h : gostring -> env -> option env)
    (component : gostring) (sc : option tagscan) : option env :=
  sc ← sc;
  if lastTagEndIndex sc <? len component then
    tag ← slice_from component (lastTagEndIndex sc);
    h tag (scanned sc)
  else Some (scanned sc).

(** A tag handler applied to the tags in turn. *)
Definition each_tag (h : gostring -> env -> option env)
    (acc : option env) (tag : gostring) : option env :=
  st ← acc; h tag st.

(** What [range] still has to pass over of a rune it decoded: [k] bytes,
    none of them ASCII. *)
Definition pending (k : nat) (s : gostring) : Prop :=
  (k <= length s)%nat /\ Forall high (firstn k s).

(** A label set as the parser builds them: every key is an identifier
    [[A-Za-z_][A-Za-z0-9_]*] and no value is empty. *)
Definition keys_ok (l : Labels) : Prop :=
  forall k v, l !! k = Some v ->
    k <> [] /\ Forall ident k /\ no_leading_digit k /\ v <> [].

(** What a tag parser may do: no event, [tag_errors] only, well-formed
    labels kept well-formed. *)
Definition tag_effect (st st' : env) : Prop :=
  events st' = events st
  /\ (exists n, telemetry st' = telemetry st ++ repeat tagErrors n)
  /\ (keys_ok (labels st) -> keys_ok (labels st')).

(** The component starts with [#]. *)
Definition starts_hash (c : gostring) : bool :=
  match c with
  | b :: _ => byteval b =? 35
  | [] => false
  end.

(** The counters a suffix component of a sample may touch. *)
Definition component_noise (m : Metric) : Prop :=
  m = tagErrors \/ m = sampleErrors "invalid_sample_factor".

(** What a suffix component of a sample may do. *)
Definition component_effect (component : gostring) (st st' : env) : Prop :=
  events st' = events st
  /\ (exists added,
        telemetry st' = telemetry st ++ added /\ Forall component_noise added)
  /\ (keys_ok (labels st) -> keys_ok (labels st'))
  /\ (starts_hash component = false -> labels st' = labels st).

(** The string holds a [|] followed by a [#]. *)
Fixpoint bar_hash (s : gostring) : bool :=
  match s with
  | [] => false
  | a :: t => ((byteval a =? 124) && starts_hash t) || bar_hash t
  end.

(** The state [st] reached after the events [evs] and the counters [log]
    of earlier samples. *)
Definition prefixed (evs : Events) (log : list Metric) (st : env) : env :=
  Env (labels st) (evs ++ events st) (log ++ telemetry st).


(** The samples of the part of a line after its name: the whole of it
    when it holds DogStatsD tags, its colon-separated pieces otherwise. *)
Definition samples_of (rest : gostring) : list gostring :=
  if strings.Contains rest (str "|#") then [rest]
  else strings.Split rest ":"%char.

Section Samples.

Variable ParseFloat : gostring -> float * bool.
Variable unrepresentable : float -> Z.


End Samples.

(** The stat types [buildEvent] builds an event for. *)
Definition supported (statType : gostring) : bool :=
  streq statType (str "c") || streq statType (str "g")
  || is_timer_type statType.


(** The reason a sample is dropped for, if it is: the tests of the sample
    loop in their order, then the stat type. *)
Definition drop_reason (ParseFloat : gostring -> float * bool)
    (sample : gostring) : option string :=
  let components := strings.Split sample "|"%char in
  if (len components <? 2) || (4 <? len components)
  then Some "malformed_component"%string
  else if snd (ParseFloat (nth 0 components []))
  then Some "malformed_value"%string
  else if existsb (fun component => len component =? 0) (skipn 2 components)
  then Some "malformed_component"%string
  else if supported (nth 1 components []) then None
  else Some "illegal_event"%string.

(** The bytes of [s] before the first one that satisfies [P]. *)
Fixpoint before (P : ascii -> bool) (s : gostring) : gostring :=
  match s with
  | [] => []
  | b :: t => if P b then [] else b :: before P t
  end.

(** The bytes that end the metric name of a line. *)
Definition name_end (b : ascii) : bool :=
  Ascii.eqb b ":"%char || Ascii.eqb b "#"%char || Ascii.eqb b ","%char.

(** The metric name of a line: what stands before its first [:], [#] or
    [,]. *)
Definition metric_of (line : gostring) : gostring := before name_end line.

(** The counters of the line parser. *)
Definition parser_counter (m : Metric) : Prop :=
  m = samplesReceived \/ m = tagsReceived \/ m = tagErrors
  \/ exists reason, m = sampleErrors reason.



(** A mapper whose one rule drops every event. *)
Definition drop_all (_ : gostring) (_ : MetricType)
    : option MetricMapping * Labels * bool :=
  (Some {| Name := []; Action := ActionTypeDrop; HelpText := [];
           TimerType_ := TimerTypeDefault; Ttl := 0 |}, ∅, true).

(** ** The model at work *)

Example escape_dots : escapeMetricName (str "foo.bar") = Some (str "foo_bar").
Proof. reflexivity. Qed.
Example escape_digit : escapeMetricName (str "1bad") = Some (str "_1bad").
Proof. reflexivity. Qed.
Example escape_rune : escapeMetricName (str "café-x") = Some (str "caf__x").
Proof. vm_compute. reflexivity. Qed.

Example ParseFloat_decimal_tenth :
  ParseFloat_decimal (str "0.1") = (0x1.999999999999ap-4%float, false).
Proof. vm_compute. reflexivity. Qed.
Example ParseFloat_decimal_bad :
  ParseFloat_decimal (str "bar") = (PrimFloat.zero, true).
Proof. vm_compute. reflexivity. Qed.

Example line_counter :
  lineToEvents ParseFloat_decimal (fun _ => 0) (str "foo:1|c|@0.1")
  = Some ([CounterEvent (str "foo") 10 ∅], [samplesReceived]).
Proof. vm_compute. reflexivity. Qed.
Example line_tags :
  lineToEvents ParseFloat_decimal (fun _ => 0) (str "my.metric,host=a,env=prod:5|c")
  = Some ([CounterEvent (str "my.metric") 5
             (<[str "host" := str "a"]> (<[str "env" := str "prod"]> ∅))],
          [samplesReceived; tagsReceived]).
Proof. vm_compute. reflexivity. Qed.
Example line_multi :
  lineToEvents ParseFloat_decimal (fun _ => 0) (str "foo:2|c:3|c:4|g")
  = Some ([CounterEvent (str "foo") 2 ∅; CounterEvent (str "foo") 3 ∅;
           GaugeEvent (str "foo") 4 false ∅],
          [samplesReceived; samplesReceived; samplesReceived]).
Proof. vm_compute. reflexivity. Qed.
Example line_timer :
  lineToEvents ParseFloat_decimal (fun _ => 0) (str "foo:320|ms|@0.3")
  = Some (repeat (TimerEvent (str "foo") 320 ∅) 3, [samplesReceived]).
Proof. vm_compute. reflexivity. Qed.

(** * Properties *)

(** ** Bytes, lengths and slices *)

Lemma byteval_range b : 0 <= byteval b < 256.
Proof. unfold byteval. pose proof (N_ascii_bounded b). lia. Qed.

Lemma chr_byteval b : chr (byteval b) = b.
Proof. unfold chr, byteval. rewrite N2Z.id. apply ascii_N_embedding. Qed.

Lemma byteval_inj a b : byteval a = byteval b -> a = b.
Proof.
  intros H. rewrite <- (chr_byteval a), <- (chr_byteval b). now rewrite H.
Qed.

Lemma len_nil {A} : len (@nil A) = 0.
Proof. reflexivity. Qed.

Lemma len_cons {A} (x : A) l : len (x :: l) = len l + 1.
Proof. unfold len. cbn [length]. lia. Qed.

Lemma len_app {A} (l1 l2 : list A) : len (l1 ++ l2) = len l1 + len l2.
Proof. unfold len. rewrite length_app. lia. Qed.

Lemma len_nonneg {A} (l : list A) : 0 <= len l.
Proof. unfold len. lia. Qed.

Lemma len_zero {A} (l : list A) : len l = 0 -> l = [].
Proof. destruct l; [easy | rewrite len_cons; pose proof (len_nonneg l); lia]. Qed.

Lemma slice_in_range s lo hi :
  0 <= lo <= hi -> hi <= len s ->
  slice s lo hi = Some (firstn (Z.to_nat (hi - lo)) (skipn (Z.to_nat lo) s)).
Proof.
  intros H1 H2. unfold slice.
  destruct (Z.leb_spec 0 lo), (Z.leb_spec lo hi), (Z.leb_spec hi (len s));
    try lia; reflexivity.
Qed.

Lemma slice_Some s lo hi r :
  slice s lo hi = Some r ->
  0 <= lo <= hi /\ hi <= len s
  /\ r = firstn (Z.to_nat (hi - lo)) (skipn (Z.to_nat lo) s).
Proof.
  unfold slice.
  destruct (Z.leb_spec 0 lo), (Z.leb_spec lo hi), (Z.leb_spec hi (len s));
    cbn; intros E; inversion E; repeat split; lia.
Qed.

(** Slices of a string cut in two at [len pre]. *)
Lemma slice_app_prefix pre suf lo :
  0 <= lo <= len pre ->
  slice (pre ++ suf) lo (len pre) = Some (skipn (Z.to_nat lo) pre).
Proof.
  intros H. rewrite slice_in_range by (rewrite ?len_app; pose proof (len_nonneg suf); lia).
  f_equal. unfold len in *.
  rewrite skipn_app, firstn_app, length_skipn.
  replace (Z.to_nat (Z.of_nat (length pre) - lo) - (length pre - Z.to_nat lo))%nat
    with 0%nat by lia.
  rewrite firstn_0, app_nil_r. apply firstn_all2. rewrite length_skipn. lia.
Qed.

Lemma slice_from_app pre suf :
  slice_from (pre ++ suf) (len pre) = Some suf.
Proof.
  unfold slice_from.
  rewrite slice_in_range by (rewrite ?len_app; pose proof (len_nonneg pre);
                             pose proof (len_nonneg suf); lia).
  f_equal. rewrite len_app. unfold len.
  rewrite skipn_app, Nat2Z.id, skipn_all, Nat.sub_diag. cbn [app skipn].
  apply firstn_all2. lia.
Qed.

Lemma slice_from_all s lo :
  0 <= lo <= len s -> slice_from s lo = Some (skipn (Z.to_nat lo) s).
Proof.
  intros H. unfold slice_from. rewrite slice_in_range by lia.
  f_equal. apply firstn_all2. rewrite length_skipn. unfold len. lia.
Qed.

Lemma fold_left_None {A B} (f : option A -> B -> option A) l :
  (forall x, f None x = None) -> fold_left f l None = None.
Proof. intros H. induction l; cbn; [easy | now rewrite H]. Qed.

(** ** Decoding *)

Ltac bool_to_Z :=
  repeat match goal with
  | H : _ && _ = true |- _ => apply andb_true_iff in H; destruct H
  | H : _ && _ = false |- _ => apply andb_false_iff in H
  | H : _ || _ = true |- _ => apply orb_true_iff in H
  | H : _ || _ = false |- _ => apply orb_false_iff in H; destruct H
  | H : (_ <=? _) = true |- _ => apply Z.leb_le in H
  | H : (_ <=? _) = false |- _ => apply Z.leb_gt in H
  | H : (_ <? _) = true |- _ => apply Z.ltb_lt in H
  | H : (_ <? _) = false |- _ => apply Z.ltb_ge in H
  | H : (_ =? _) = true |- _ => apply Z.eqb_eq in H
  | H : (_ =? _) = false |- _ => apply Z.eqb_neq in H
  end.

Lemma cont_range x : utf8.cont x = true -> 0x80 <= x <= 0xBF.
Proof. unfold utf8.cont. intros H. bool_to_Z. lia. Qed.

Lemma second_range x0 x1 :
  utf8.second x0 x1 = true ->
  0x80 <= x1 <= 0xBF
  /\ (x0 = 0xE0 -> 0xA0 <= x1) /\ (x0 = 0xED -> x1 <= 0x9F)
  /\ (x0 = 0xF0 -> 0x90 <= x1) /\ (x0 = 0xF4 -> x1 <= 0x8F).
Proof.
  unfold utf8.second, utf8.cont.
  destruct (Z.eqb_spec x0 224); [intros H; bool_to_Z; lia|].
  destruct (Z.eqb_spec x0 237); [intros H; bool_to_Z; lia|].
  destruct (Z.eqb_spec x0 240); [intros H; bool_to_Z; lia|].
  destruct (Z.eqb_spec x0 244); intros H; bool_to_Z; lia.
Qed.

Lemma RuneLen_2 c : 0x80 <= c <= 0x7FF -> utf8.RuneLen c = 2.
Proof.
  intros H. unfold utf8.RuneLen.
  destruct (Z.ltb_spec c 0); [lia|].
  destruct (Z.leb_spec c 127); [lia|].
  destruct (Z.leb_spec c 2047); [easy|lia].
Qed.

Lemma RuneLen_3 c :
  0x800 <= c <= 0xFFFF -> c < 0xD800 \/ 0xDFFF < c -> utf8.RuneLen c = 3.
Proof.
  intros H S. unfold utf8.RuneLen.
  destruct (Z.ltb_spec c 0); [lia|].
  destruct (Z.leb_spec c 127); [lia|].
  destruct (Z.leb_spec c 2047); [lia|].
  destruct (Z.leb_spec 55296 c), (Z.leb_spec c 57343); cbn [andb]; try lia;
    destruct (Z.leb_spec c 65535); easy || lia.
Qed.

Lemma RuneLen_4 c : 0x10000 <= c <= 0x10FFFF -> utf8.RuneLen c = 4.
Proof.
  intros H. unfold utf8.RuneLen.
  destruct (Z.ltb_spec c 0); [lia|].
  destruct (Z.leb_spec c 127); [lia|].
  destruct (Z.leb_spec c 2047); [lia|].
  destruct (Z.leb_spec 55296 c), (Z.leb_spec c 57343); cbn [andb]; try lia;
    destruct (Z.leb_spec c 65535); try lia;
    destruct (Z.leb_spec c 1114111); easy || lia.
Qed.

(** The three ways a decoding step ends: an ASCII byte, an error of width
    one, or an encoded rune whose [RuneLen] is the width consumed. *)
Lemma Decode_cases b0 t c w :
  utf8.DecodeRuneInString (b0 :: t) = (c, w) ->
  (c = byteval b0 /\ c < 0x80 /\ w = 1)
  \/ (c = utf8.RuneError /\ w = 1)
  \/ (0x80 <= c /\ w = utf8.RuneLen c /\ 2 <= w <= 4 /\ w <= len (b0 :: t)
      /\ exists r t', b0 :: t = r ++ t' /\ len r = w
                      /\ forall s, Valid s -> Valid (r ++ s)).
Proof.
  pose proof (byteval_range b0) as R0.
  unfold utf8.DecodeRuneInString.
  destruct (byteval b0 <? 128) eqn:E1.
  { intros [= <- <-]. bool_to_Z. left. lia. }
  destruct ((194 <=? byteval b0) && (byteval b0 <=? 223)) eqn:E2.
  { destruct t as [|b1 t]; [intros [= <- <-]; auto|].
    destruct (utf8.cont (byteval b1)) eqn:C1; [|intros [= <- <-]; auto].
    intros [= <- <-]. apply cont_range in C1. bool_to_Z.
    right; right. rewrite !len_cons. pose proof (len_nonneg t).
    rewrite RuneLen_2 by lia. repeat split; try lia.
    exists [b0; b1], t. repeat split. intros s V. apply Valid_2; auto.
    unfold utf8.cont. apply andb_true_iff. split; apply Z.leb_le; lia. }
  destruct ((224 <=? byteval b0) && (byteval b0 <=? 239)) eqn:E3.
  { destruct t as [|b1 [|b2 t]]; try (intros [= <- <-]; auto).
    destruct (utf8.second (byteval b0) (byteval b1)) eqn:C1;
      [|intros [= <- <-]; auto].
    destruct (utf8.cont (byteval b2)) eqn:C2; [|intros [= <- <-]; auto].
    cbn [andb]. intros [= <- <-]. pose proof C1 as C1'. pose proof C2 as C2'.
    apply second_range in C1. apply cont_range in C2. bool_to_Z.
    right; right. rewrite !len_cons. pose proof (len_nonneg t).
    rewrite RuneLen_3 by lia. repeat split; try lia.
    exists [b0; b1; b2], t. repeat split. intros s V. apply Valid_3; auto. }
  destruct ((240 <=? byteval b0) && (byteval b0 <=? 244)) eqn:E4.
  { destruct t as [|b1 [|b2 [|b3 t]]]; try (intros [= <- <-]; auto).
    destruct (utf8.second (byteval b0) (byteval b1)) eqn:C1;
      [|intros [= <- <-]; auto].
    destruct (utf8.cont (byteval b2)) eqn:C2; [|intros [= <- <-]; auto].
    destruct (utf8.cont (byteval b3)) eqn:C3; [|intros [= <- <-]; auto].
    cbn [andb]. intros [= <- <-].
    pose proof C1 as C1'. pose proof C2 as C2'. pose proof C3 as C3'.
    apply second_range in C1. apply cont_range in C2. apply cont_range in C3.
    bool_to_Z.
    right; right. rewrite !len_cons. pose proof (len_nonneg t).
    rewrite RuneLen_4 by lia. repeat split; try lia.
    exists [b0; b1; b2; b3], t. repeat split. intros s V. apply Valid_4; auto. }
  intros [= <- <-]; auto.
Qed.

Lemma valid_char_ascii c : valid_char c = true -> 0 <= c < 0x80.
Proof. unfold valid_char. intros H. bool_to_Z. lia. Qed.

Lemma Decode_valid_char b0 t c w :
  utf8.DecodeRuneInString (b0 :: t) = (c, w) -> c < 0x80 ->
  c = byteval b0 /\ w = 1.
Proof.
  intros D V. apply Decode_cases in D.
  unfold utf8.RuneError in D. lia.
Qed.

Lemma Decode_ascii b0 t :
  byteval b0 < 0x80 -> utf8.DecodeRuneInString (b0 :: t) = (byteval b0, 1).
Proof.
  intros H. unfold utf8.DecodeRuneInString.
  destruct (Z.ltb_spec (byteval b0) 128); [reflexivity | lia].
Qed.

Lemma RuneLen_RuneError : utf8.RuneLen utf8.RuneError = 3.
Proof. reflexivity. Qed.

(** The width the loop advances by never exceeds [RuneLen] of the rune. *)
Lemma Decode_RuneLen b0 t c w :
  utf8.DecodeRuneInString (b0 :: t) = (c, w) ->
  1 <= w <= utf8.RuneLen c.
Proof.
  intros D. apply Decode_cases in D.
  destruct D as [(-> & H & ->) | [(-> & ->) | (H1 & H2 & H3 & _)]].
  - pose proof (byteval_range b0). unfold utf8.RuneLen.
    destruct (Z.ltb_spec (byteval b0) 0); [lia|].
    destruct (Z.leb_spec (byteval b0) 127); lia.
  - rewrite RuneLen_RuneError. lia.
  - lia.
Qed.

(** ** [escapeMetricName]: what holds of every result *)

Lemma escape_step_None s e : escape_step s None e = None.
Proof. reflexivity. Qed.

Lemma no_leading_digit_app a b :
  a <> [] -> no_leading_digit a -> no_leading_digit (a ++ b).
Proof. destruct a; [easy | intros _ H; exact H]. Qed.

Lemma no_leading_digit_prefix pre suf tl :
  no_leading_digit (pre ++ suf) -> no_leading_digit (pre ++ str "_" ++ tl).
Proof. destruct pre; [intros _; reflexivity | intros H; exact H]. Qed.

Lemma ident_underscore : ident "_"%char.
Proof. reflexivity. Qed.

Lemma skipn_snoc_far {A} (pre : list A) b n :
  (length pre < n)%nat -> skipn n (pre ++ [b]) = [].
Proof. intros H. apply skipn_all2. rewrite length_app. cbn. lia. Qed.

Lemma escape_fold_inv s suf : forall pre skip st st',
  s = pre ++ suf ->
  esc_inv s pre skip st ->
  fold_left (escape_step s) (utf8.range_from (len pre) skip suf) (Some st)
  = Some st' ->
  esc_inv s s 0 st'.
Proof.
  induction suf as [|b t IH]; intros pre skip st st' Hs I F.
  - cbn in F. injection F as <-. rewrite app_nil_r in Hs. subst pre.
    destruct I; constructor; auto.
  - assert (Hs' : s = (pre ++ [b]) ++ t) by (rewrite <- app_assoc; exact Hs).
    assert (Hl : len (pre ++ [b]) = len pre + 1)
      by (rewrite len_app, len_cons, len_nil; lia).
    destruct skip as [|k].
    + cbn [utf8.range_from] in F.
      destruct (utf8.DecodeRuneInString (b :: t)) as [c w] eqn:D.
      cbn [fold_left] in F. rewrite <- Hl in F.
      unfold escape_step at 2 in F. cbn [mbind option_bind utf8.rune utf8.index] in F.
      destruct (valid_char c) eqn:V.
      * pose proof (valid_char_ascii _ V) as A.
        destruct (Decode_valid_char _ _ _ _ D ltac:(lia)) as [-> ->].
        refine (IH (pre ++ [b]) _ _ _ Hs' _ F).
        destruct I as [I1 I2 I3 I4 I5 I6]. constructor; auto.
        rewrite skipn_app. apply Forall_app. split; [exact I2|].
        destruct (Z.to_nat (offset st) - length pre)%nat; cbn.
        -- constructor; [exact V | constructor].
        -- rewrite skipn_nil. constructor.
      * destruct (slice s (offset st) (len pre)) as [chunk|] eqn:S.
        2:{ rewrite Hl in F. cbn in F.
            rewrite fold_left_None in F by apply escape_step_None. discriminate. }
        cbn in F. pose proof (slice_Some _ _ _ _ S) as (B1 & B2 & _).
        rewrite Hs, slice_app_prefix in S by lia. injection S as <-.
        pose proof (Decode_RuneLen _ _ _ _ D) as RL.
        rewrite Hl in F. rewrite <- Hl in F at 1.
        refine (IH (pre ++ [b]) _ _ _ Hs' _ F).
        destruct I as [I1 I2 I3 I4 I5 I6]. cbn [offset sb escaped].
        constructor; cbn [offset sb escaped].
        -- lia.
        -- rewrite skipn_snoc_far by (unfold len in *; lia). constructor.
        -- rewrite !Forall_app. repeat split; auto.
           constructor; [apply ident_underscore | constructor].
        -- intros [=].
        -- intros _. split.
           { intros N. apply app_eq_nil in N as [_ N].
             apply app_eq_nil in N as [_ N]. discriminate. }
           destruct (escaped st) eqn:E.
           ++ destruct (I5 eq_refl) as [N1 N2]. now apply no_leading_digit_app.
           ++ destruct (I4 eq_refl) as (-> & -> & N). cbn [app Z.to_nat skipn].
              rewrite Hs in N. eapply no_leading_digit_prefix. exact N.
        -- right. rewrite Hl. lia.
    + cbn [utf8.range_from] in F. rewrite <- Hl in F.
      refine (IH (pre ++ [b]) _ _ _ Hs' _ F).
      destruct I as [I1 I2 I3 I4 I5 I6]. constructor; auto.
      * destruct I6 as [?|I6]; [discriminate|].
        rewrite skipn_snoc_far by (unfold len in *; lia). constructor.
      * destruct I6 as [?|I6]; [discriminate|]. right. lia.
Qed.

Lemma byte_at_0 b t : byte_at (b :: t) 0 = Some b.
Proof.
  unfold byte_at. rewrite len_cons. pose proof (len_nonneg t).
  destruct (Z.ltb_spec 0 (len t + 1)); [reflexivity | lia].
Qed.

(** Whatever the name, a result is made of identifier bytes only and does
    not start with a digit. *)
Lemma escape_result s r :
  escapeMetricName s = Some r -> Forall ident r /\ no_leading_digit r.
Proof.
  unfold escapeMetricName.
  destruct s as [|b t]; [intros [= <-]; split; [constructor | exact I]|].
  rewrite len_cons. pose proof (len_nonneg t) as L.
  destruct (Z.eqb_spec (len t + 1) 0) as [?|_]; [lia|].
  rewrite byte_at_0. cbn [mbind option_bind].
  destruct (fold_left _ _ _) as [st'|] eqn:F; [|discriminate].
  unfold utf8.range in F. change 0 with (len (@nil ascii)) in F at 1.
  apply (escape_fold_inv (b :: t)) with (pre := []) in F; [|reflexivity|].
  - destruct F as [I1 I2 I3 I4 I5 _]. cbn [mbind option_bind].
    destruct (escaped st') eqn:E; cbn [negb].
    + destruct (I5 eq_refl) as [N1 N2].
      destruct (Z.ltb_spec (offset st') (len t + 1)).
      * rewrite slice_from_all by (rewrite len_cons; lia).
        cbn [mbind option_bind]. intros [= <-]. split.
        -- apply Forall_app. split; assumption.
        -- now apply no_leading_digit_app.
      * intros [= <-]. split; assumption.
    + destruct (I4 eq_refl) as (_ & O & N). rewrite O in I2.
      intros [= <-]. split; assumption.
  - destruct (is_digit (byteval b)) eqn:Dg; constructor; cbn [offset sb escaped];
      try lia; try (now constructor); try (intros [=]); auto.
Qed.

Lemma ident_ascii b : ident b -> byteval b < 0x80.
Proof. intros H. apply valid_char_ascii in H. lia. Qed.

Lemma escape_fold_ident s suf : forall i st,
  Forall ident suf ->
  fold_left (escape_step s) (utf8.range_from i 0 suf) (Some st) = Some st.
Proof.
  induction suf as [|b t IH]; intros i st H; [reflexivity|].
  inversion H as [|? ? Hb Ht]; subst.
  cbn [utf8.range_from]. rewrite Decode_ascii by now apply ident_ascii.
  cbn [fold_left]. unfold escape_step at 2.
  cbn [mbind option_bind utf8.rune]. rewrite Hb. now apply IH.
Qed.

(** A name of identifier bytes that does not start with a digit is
    returned as it is. *)
Lemma escape_fixed r :
  Forall ident r -> no_leading_digit r -> escapeMetricName r = Some r.
Proof.
  intros H N. unfold escapeMetricName.
  destruct r as [|b t]; [reflexivity|].
  rewrite len_cons. pose proof (len_nonneg t) as L.
  destruct (Z.eqb_spec (len t + 1) 0) as [?|_]; [lia|].
  rewrite byte_at_0. cbn [mbind option_bind].
  cbn in N. rewrite N. unfold utf8.range.
  rewrite escape_fold_ident by exact H. reflexivity.
Qed.

(** Escaping is idempotent wherever it returns: escaping the result of
    an escaping gives that result again; where the first call panics, so
    does the composition. *)
Theorem escapeMetricName_idempotent (n : gostring) :
  (escapeMetricName n ≫= escapeMetricName) = escapeMetricName n.
Proof.
  destruct (escapeMetricName n) as [r|] eqn:E; [|reflexivity].
  cbn [mbind option_bind]. apply escape_result in E as [H N].
  now apply escape_fixed.
Qed.

(** ** Runes of a well-formed string *)

Lemma range_from_skip a : forall i t,
  utf8.range_from i (length a) (a ++ t) = utf8.range_from (i + len a) 0 t.
Proof.
  induction a as [|x a IH]; intros i t; cbn [length app utf8.range_from].
  - rewrite len_nil. f_equal. lia.
  - rewrite IH, len_cons. f_equal. lia.
Qed.

(** A decoding step that is not an error consumes one encoded rune [r]. *)
Lemma Decode_ok b0 t c w :
  utf8.DecodeRuneInString (b0 :: t) = (c, w) ->
  rune_ok (utf8.Entry 0 c w) = true ->
  exists r t',
    b0 :: t = r ++ t' /\ len r = w /\ 1 <= w /\ w = utf8.RuneLen c
    /\ (valid_char c = true -> r = [chr c])
    /\ (forall s, Valid s -> Valid (r ++ s))
    /\ forall i, utf8.range_from i 0 (b0 :: t)
                 = utf8.Entry i c w :: utf8.range_from (i + w) 0 t'.
Proof.
  intros D OK. pose proof (Decode_cases _ _ _ _ D) as C.
  destruct C as [(-> & H & ->) | [(-> & ->) | (H1 & H2 & H3 & H4 & r & t' & E & L & V)]].
  - exists [b0], t. repeat split; try reflexivity; try lia.
    + pose proof (byteval_range b0). unfold utf8.RuneLen.
      destruct (Z.ltb_spec (byteval b0) 0); [lia|].
      destruct (Z.leb_spec (byteval b0) 127); lia.
    + intros _. now rewrite chr_byteval.
    + intros s V. now apply Valid_1.
    + intros i. cbn [utf8.range_from]. rewrite D. reflexivity.
  - discriminate OK.
  - exists r, t'. repeat split; auto; try lia.
    + intros VC. apply valid_char_ascii in VC. lia.
    + intros i. cbn [utf8.range_from]. rewrite D. f_equal.
      destruct r as [|x r']; [rewrite len_nil in L; lia|].
      injection E as -> ->. rewrite len_cons in L.
      replace (Z.to_nat (w - 1)) with (length r') by (unfold len in L; lia).
      rewrite range_from_skip. f_equal. lia.
Qed.

Lemma forallb_range_shift s : forall i j k,
  forallb rune_ok (utf8.range_from i k s)
  = forallb rune_ok (utf8.range_from j k s).
Proof.
  induction s as [|b t IH]; intros i j k; [reflexivity|].
  cbn [utf8.range_from]. destruct k; [|apply IH].
  destruct (utf8.DecodeRuneInString (b :: t)) as [c w].
  cbn [forallb]. f_equal. apply IH.
Qed.

Lemma ValidString_range s i :
  utf8.ValidString s = true -> forallb rune_ok (utf8.range_from i 0 s) = true.
Proof.
  intros H. rewrite (forallb_range_shift s i 0 0). exact H.
Qed.

(** [ValidString] accepts well-formed strings only. *)
Lemma ValidString_Valid_aux n : forall s i,
  (length s <= n)%nat ->
  forallb rune_ok (utf8.range_from i 0 s) = true -> Valid s.
Proof.
  induction n as [|n IH]; intros s i L H.
  - destruct s; [constructor | cbn in L; lia].
  - destruct s as [|b0 t]; [constructor|].
    destruct (utf8.DecodeRuneInString (b0 :: t)) as [c w] eqn:D.
    assert (OK : rune_ok (utf8.Entry 0 c w) = true).
    { cbn [utf8.range_from] in H. rewrite D in H. cbn [forallb] in H.
      apply andb_true_iff in H as [H _]. exact H. }
    destruct (Decode_ok _ _ _ _ D OK) as (r & t' & E & Lr & W & _ & _ & V & R).
    rewrite R in H. cbn [forallb] in H. apply andb_true_iff in H as [_ H].
    rewrite E. apply V. apply (IH t' (i + w)); [|exact H].
    apply (f_equal (@length ascii)) in E. rewrite length_app in E.
    cbn [length] in E, L. unfold len in Lr. lia.
Qed.

Lemma ValidString_Valid s : utf8.ValidString s = true -> Valid s.
Proof. apply (ValidString_Valid_aux (length s) s 0). lia. Qed.

Lemma Decode_2 b0 b1 s :
  0xC2 <= byteval b0 <= 0xDF -> utf8.cont (byteval b1) = true ->
  exists c, utf8.DecodeRuneInString (b0 :: b1 :: s) = (c, 2).
Proof.
  intros H0 H1. unfold utf8.DecodeRuneInString.
  destruct (Z.ltb_spec (byteval b0) 128); [lia|].
  destruct (Z.leb_spec 194 (byteval b0)), (Z.leb_spec (byteval b0) 223);
    try lia.
  cbn [andb]. rewrite H1. eauto.
Qed.

Lemma Decode_3 b0 b1 b2 s :
  0xE0 <= byteval b0 <= 0xEF ->
  utf8.second (byteval b0) (byteval b1) = true ->
  utf8.cont (byteval b2) = true ->
  exists c, utf8.DecodeRuneInString (b0 :: b1 :: b2 :: s) = (c, 3).
Proof.
  intros H0 H1 H2. unfold utf8.DecodeRuneInString.
  destruct (Z.ltb_spec (byteval b0) 128); [lia|].
  destruct (Z.leb_spec 194 (byteval b0)), (Z.leb_spec (byteval b0) 223);
    try lia; cbn [andb];
  destruct (Z.leb_spec 224 (byteval b0)), (Z.leb_spec (byteval b0) 239);
    try lia; cbn [andb]; rewrite H1, H2; eauto.
Qed.

Lemma Decode_4 b0 b1 b2 b3 s :
  0xF0 <= byteval b0 <= 0xF4 ->
  utf8.second (byteval b0) (byteval b1) = true ->
  utf8.cont (byteval b2) = true -> utf8.cont (byteval b3) = true ->
  exists c, utf8.DecodeRuneInString (b0 :: b1 :: b2 :: b3 :: s) = (c, 4).
Proof.
  intros H0 H1 H2 H3. unfold utf8.DecodeRuneInString.
  destruct (Z.ltb_spec (byteval b0) 128); [lia|].
  destruct (Z.leb_spec 194 (byteval b0)), (Z.leb_spec (byteval b0) 223);
    try lia; cbn [andb];
  destruct (Z.leb_spec 224 (byteval b0)), (Z.leb_spec (byteval b0) 239);
    try lia; cbn [andb];
  destruct (Z.leb_spec 240 (byteval b0)), (Z.leb_spec (byteval b0) 244);
    try lia; cbn [andb]; rewrite H1, H2, H3; eauto.
Qed.

Lemma rune_ok_wide i c w : w <> 1 -> rune_ok (utf8.Entry i c w) = true.
Proof.
  intros H. unfold rune_ok. cbn [utf8.rune utf8.width].
  destruct (Z.eqb_spec w 1); [lia|]. now rewrite andb_false_r.
Qed.

(** [ValidString] accepts every well-formed string. *)
Lemma Valid_range s :
  Valid s -> forall i, forallb rune_ok (utf8.range_from i 0 s) = true.
Proof.
  induction 1 as [|b0 s H0 V IH|b0 b1 s H0 H1 V IH|b0 b1 b2 s H0 H1 H2 V IH
                  |b0 b1 b2 b3 s H0 H1 H2 H3 V IH]; intros i.
  - reflexivity.
  - cbn [utf8.range_from]. rewrite Decode_ascii by exact H0.
    cbn [forallb]. rewrite IH. unfold rune_ok. cbn [utf8.rune].
    pose proof (byteval_range b0). unfold utf8.RuneError.
    destruct (Z.eqb_spec (byteval b0) 65533); [lia | reflexivity].
  - destruct (Decode_2 b0 b1 s H0 H1) as [c D].
    cbn [utf8.range_from]. rewrite D.
    cbn [forallb Z.to_nat Z.sub Z.add Z.opp Z.pos_sub Pos.to_nat Pos.iter_op
         Init.Nat.add].
    rewrite rune_ok_wide by lia. apply IH.
  - destruct (Decode_3 b0 b1 b2 s H0 H1 H2) as [c D].
    cbn [utf8.range_from]. rewrite D.
    cbn [forallb Z.to_nat Z.sub Z.add Z.opp Z.pos_sub Pos.to_nat Pos.iter_op
         Init.Nat.add].
    rewrite rune_ok_wide by lia. apply IH.
  - destruct (Decode_4 b0 b1 b2 b3 s H0 H1 H2 H3) as [c D].
    cbn [utf8.range_from]. rewrite D.
    cbn [forallb Z.to_nat Z.sub Z.add Z.opp Z.pos_sub Pos.to_nat Pos.iter_op
         Init.Nat.add].
    rewrite rune_ok_wide by lia. apply IH.
Qed.

Lemma Valid_ValidString s : Valid s -> utf8.ValidString s = true.
Proof. intros V. exact (Valid_range s V 0). Qed.

(** ** [escapeMetricName] on well-formed names *)

Lemma skipn_app_le {A} (l1 l2 : list A) n :
  (n <= length l1)%nat -> skipn n (l1 ++ l2) = skipn n l1 ++ l2.
Proof.
  intros H. rewrite skipn_app.
  replace (n - length l1)%nat with 0%nat by lia. reflexivity.
Qed.

Lemma escape_fold_valid s n : forall suf pre st acc,
  (length suf <= n)%nat ->
  s = pre ++ suf ->
  forallb rune_ok (utf8.range_from (len pre) 0 suf) = true ->
  esc_valid_inv pre st acc ->
  exists st',
    fold_left (escape_step s) (utf8.range_from (len pre) 0 suf) (Some st)
    = Some st'
    /\ esc_valid_inv s st'
         (acc ++ flat_map replace_rune (utf8.range_from (len pre) 0 suf)).
Proof.
  induction n as [|n IH]; intros suf pre st acc L Hs OK I.
  - destruct suf; [|cbn in L; lia]. rewrite app_nil_r in Hs. subst pre.
    exists st. cbn. rewrite app_nil_r. auto.
  - destruct suf as [|b0 t].
    { rewrite app_nil_r in Hs. subst pre. exists st. cbn.
      rewrite app_nil_r. auto. }
    destruct (utf8.DecodeRuneInString (b0 :: t)) as [c w] eqn:D.
    assert (OK1 : rune_ok (utf8.Entry 0 c w) = true).
    { cbn [utf8.range_from] in OK. rewrite D in OK. cbn [forallb] in OK.
      apply andb_true_iff in OK as [OK _]. exact OK. }
    destruct (Decode_ok _ _ _ _ D OK1) as (r & t' & E & Lr & W & RL & A & _ & R).
    rewrite R in OK |- *. cbn [forallb] in OK.
    apply andb_true_iff in OK as [_ OK].
    assert (Hs' : s = (pre ++ r) ++ t') by (rewrite <- app_assoc, <- E; exact Hs).
    assert (Hl : len (pre ++ r) = len pre + w) by (rewrite len_app; lia).
    assert (Lt : (length t' <= n)%nat).
    { apply (f_equal (@length ascii)) in E. rewrite length_app in E.
      cbn [length] in E, L. unfold len in Lr. lia. }
    rewrite <- Hl in OK |- *.
    cbn [fold_left flat_map]. unfold escape_step at 2.
    cbn [mbind option_bind utf8.rune utf8.index]. unfold replace_rune at 1.
    cbn [utf8.rune]. destruct I as [B I].
    destruct (valid_char c) eqn:VC.
    + rewrite (A eq_refl) in *. rewrite app_assoc.
      apply (IH t' (pre ++ [chr c]) st _ Lt Hs' OK).
      split; [rewrite Hl; lia|].
      destruct (escaped st).
      * rewrite skipn_app_le by (unfold len in B; lia).
        rewrite app_assoc. now rewrite I.
      * destruct I as (I1 & I2 & I3). now rewrite I3.
    + assert (S : slice s (offset st) (len pre)
                  = Some (skipn (Z.to_nat (offset st)) pre))
        by (rewrite Hs; apply slice_app_prefix; lia).
      rewrite S. cbn [mbind option_bind]. rewrite (app_assoc acc).
      apply (IH t' (pre ++ r) _ _ Lt Hs' OK).
      split; cbn [offset escaped sb]; [rewrite Hl; lia|].
      rewrite <- RL, <- Hl. unfold len. rewrite Nat2Z.id, skipn_all, app_nil_r.
      destruct (escaped st).
      * rewrite app_assoc. now rewrite I.
      * destruct I as (-> & -> & I3). cbn [Z.to_nat skipn app]. now rewrite I3.
Qed.

(** On a well-formed name the escaping is the one the specification
    words: it does not panic, and every rune outside the identifier class
    becomes one underscore. *)
Lemma escape_valid n :
  Valid n -> escapeMetricName n = Some (escape_spec n).
Proof.
  intros V. unfold escapeMetricName, escape_spec.
  destruct n as [|b t]; [reflexivity|].
  rewrite len_cons. pose proof (len_nonneg t) as L.
  destruct (Z.eqb_spec (len t + 1) 0) as [?|_]; [lia|].
  rewrite byte_at_0. cbn [mbind option_bind].
  pose proof (Valid_range _ V (len (@nil ascii))) as OK.
  set (st0 := if is_digit (byteval b) then Escaper true (str "_") 0
              else Escaper false [] 0).
  set (acc0 := if is_digit (byteval b) then str "_" else []).
  destruct (escape_fold_valid (b :: t) (length (b :: t)) (b :: t) [] st0 acc0)
    as (st' & F & B & I); auto.
  { subst st0 acc0. unfold esc_valid_inv.
    destruct (is_digit _); cbn; repeat split; lia || reflexivity. }
  unfold utf8.range. change (len (@nil ascii)) with 0 in F, I. rewrite F.
  cbn [mbind option_bind]. rewrite len_cons in B.
  destruct (escaped st'); cbn [negb].
  - destruct (Z.ltb_spec (offset st') (len t + 1)).
    + rewrite slice_from_all by (rewrite len_cons; lia).
      cbn [mbind option_bind]. now rewrite I.
    + rewrite <- I. replace (offset st') with (len (b :: t))
        by (rewrite len_cons; lia).
      unfold len. now rewrite Nat2Z.id, skipn_all, app_nil_r.
  - destruct I as (_ & _ & <-). reflexivity.
Qed.

Lemma ident_replace_rune e : Forall ident (replace_rune e).
Proof.
  unfold replace_rune. destruct (valid_char (utf8.rune e)) eqn:V.
  - constructor; [|constructor]. unfold ident.
    pose proof (valid_char_ascii _ V).
    unfold byteval, chr. rewrite N_ascii_embedding.
    + rewrite Z2N.id by lia. exact V.
    + lia.
  - constructor; [apply ident_underscore | constructor].
Qed.

Lemma ident_escape_spec n : Forall ident (escape_spec n).
Proof.
  unfold escape_spec. apply Forall_app. split.
  - destruct n as [|b t]; [constructor|].
    destruct (is_digit (byteval b)); [|constructor].
    constructor; [apply ident_underscore | constructor].
  - induction (utf8.range n) as [|e l IH]; [constructor|].
    cbn [flat_map]. apply Forall_app. split; [apply ident_replace_rune | exact IH].
Qed.

(** ** Cutting a well-formed string at an ASCII byte *)

Lemma Valid_cut a c b :
  Valid (a ++ c :: b) -> byteval c < 0x80 -> Valid a /\ Valid b.
Proof.
  intros V Hc. remember (a ++ c :: b) as s eqn:E. revert a E.
  induction V as [|b0 s H0 V IH|b0 b1 s H0 H1 V IH|b0 b1 b2 s H0 H1 H2 V IH
                  |b0 b1 b2 b3 s H0 H1 H2 H3 V IH]; intros a E.
  - destruct a; discriminate.
  - destruct a as [|a0 a]; simplify_eq/=.
    + split; [constructor | exact V].
    + destruct (IH a eq_refl). split; [now apply Valid_1 | assumption].
  - apply cont_range in H1 as R1.
    destruct a as [|a0 [|a1 a]]; simplify_eq/=; try lia.
    destruct (IH a eq_refl). split; [now apply Valid_2 | assumption].
  - apply second_range in H1 as R1. apply cont_range in H2 as R2.
    destruct a as [|a0 [|a1 [|a2 a]]]; simplify_eq/=; try lia.
    destruct (IH a eq_refl). split; [now apply Valid_3 | assumption].
  - apply second_range in H1 as R1. apply cont_range in H2 as R2.
    apply cont_range in H3 as R3.
    destruct a as [|a0 [|a1 [|a2 [|a3 a]]]]; simplify_eq/=; try lia.
    destruct (IH a eq_refl). split; [now apply Valid_4 | assumption].
Qed.

Lemma eqb_high b sep :
  byteval sep < 0x80 -> 0x80 <= byteval b -> Ascii.eqb b sep = false.
Proof.
  intros H1 H2. apply Ascii.eqb_neq. intros ->. lia.
Qed.

Lemma Valid_Split s sep :
  Valid s -> byteval sep < 0x80 -> Forall Valid (strings.Split s sep).
Proof.
  intros V Hs.
  induction V as [|b0 s H0 V IH|b0 b1 s H0 H1 V IH|b0 b1 b2 s H0 H1 H2 V IH
                  |b0 b1 b2 b3 s H0 H1 H2 H3 V IH].
  - repeat constructor.
  - cbn [strings.Split]. destruct (Ascii.eqb b0 sep).
    + constructor; [constructor | exact IH].
    + destruct (strings.Split s sep) as [|x xs].
      * repeat constructor. exact H0.
      * inversion IH; subst. constructor; [now apply Valid_1 | assumption].
  - apply cont_range in H1 as R1. cbn [strings.Split].
    rewrite !eqb_high by lia.
    destruct (strings.Split s sep) as [|x xs].
    + constructor; [|constructor]. apply Valid_2; auto. constructor.
    + inversion IH; subst. constructor; [now apply Valid_2 | assumption].
  - apply second_range in H1 as R1. apply cont_range in H2 as R2.
    cbn [strings.Split]. rewrite !eqb_high by lia.
    destruct (strings.Split s sep) as [|x xs].
    + constructor; [|constructor]. apply Valid_3; auto. constructor.
    + inversion IH; subst. constructor; [now apply Valid_3 | assumption].
  - apply second_range in H1 as R1. apply cont_range in H2 as R2.
    apply cont_range in H3 as R3.
    cbn [strings.Split]. rewrite !eqb_high by lia.
    destruct (strings.Split s sep) as [|x xs].
    + constructor; [|constructor]. apply Valid_4; auto. constructor.
    + inversion IH; subst. constructor; [now apply Valid_4 | assumption].
Qed.

(** [SplitN(s, sep, 2)] cuts at the first separator. *)
Lemma SplitN2_cases s sep :
  (strings.SplitN2 s sep = [s] /\ ~ In sep s)
  \/ exists a b, strings.SplitN2 s sep = [a; b] /\ s = a ++ sep :: b
                 /\ ~ In sep a.
Proof.
  induction s as [|c s IH]; [left; split; [reflexivity | intros []]|].
  cbn [strings.SplitN2]. destruct (Ascii.eqb_spec c sep) as [->|N].
  - right. exists [], s. repeat split. intros [].
  - destruct IH as [[-> NI] | (a & b & -> & -> & NI)].
    + left. split; [reflexivity|]. intros [?|?]; [congruence | auto].
    + right. exists (c :: a), b. repeat split.
      intros [?|?]; [congruence | auto].
Qed.

Lemma SplitN2_app a b sep :
  ~ In sep a -> strings.SplitN2 (a ++ sep :: b) sep = [a; b].
Proof.
  intros NI. induction a as [|c a IH]; cbn [app strings.SplitN2].
  - now rewrite Ascii.eqb_refl.
  - destruct (Ascii.eqb_spec c sep) as [->|N]; [exfalso; apply NI; now left|].
    rewrite IH; [reflexivity|]. intros H. apply NI. now right.
Qed.

(** ** [range] and the bytes of the string *)

(** An ASCII rune met by [range] is the byte at its index. *)
Lemma range_In_ascii s : forall i k e,
  In e (utf8.range_from i k s) -> utf8.rune e < 0x80 ->
  exists pre b post,
    s = pre ++ b :: post /\ utf8.index e = i + len pre
    /\ utf8.rune e = byteval b.
Proof.
  induction s as [|b0 t IH]; intros i k e H A; [destruct H|].
  cbn [utf8.range_from] in H.
  assert (T : In e (utf8.range_from (i + 1) (match k with
                                              | O => Z.to_nat (snd (utf8.DecodeRuneInString (b0 :: t)) - 1)
                                              | S k' => k' end) t) ->
              exists pre b post, b0 :: t = pre ++ b :: post
                /\ utf8.index e = i + len pre /\ utf8.rune e = byteval b).
  { intros H'. destruct (IH _ _ _ H' A) as (pre & b & post & -> & Hi & Hr).
    exists (b0 :: pre), b, post. rewrite len_cons. repeat split; auto. lia. }
  destruct k as [|k]; [|exact (T H)].
  destruct (utf8.DecodeRuneInString (b0 :: t)) as [c w] eqn:D.
  destruct H as [<-|H]; [|exact (T H)].
  cbn [utf8.rune utf8.index] in *.
  destruct (Decode_valid_char _ _ _ _ D A) as [-> ->].
  exists [], b0, t. rewrite len_nil. repeat split. lia.
Qed.

Lemma range_index_lb s : forall i k e,
  In e (utf8.range_from i k s) -> i <= utf8.index e.
Proof.
  induction s as [|b0 t IH]; intros i k e H; [destruct H|].
  cbn [utf8.range_from] in H. destruct k as [|k].
  - destruct (utf8.DecodeRuneInString (b0 :: t)) as [c w].
    destruct H as [<-|H]; [cbn; lia|]. apply IH in H. lia.
  - apply IH in H. lia.
Qed.

Lemma range_sorted s : forall i k,
  StronglySorted index_lt (utf8.range_from i k s).
Proof.
  induction s as [|b0 t IH]; intros i k; [constructor|].
  cbn [utf8.range_from]. destruct k as [|k]; [|apply IH].
  destruct (utf8.DecodeRuneInString (b0 :: t)) as [c w].
  constructor; [apply IH|]. apply List.Forall_forall. intros e H.
  apply range_index_lb in H. unfold index_lt. cbn. lia.
Qed.

(** ** The tag parsers do not panic on well-formed input *)

Lemma slice_to_app pre suf : slice_to (pre ++ suf) (len pre) = Some pre.
Proof.
  unfold slice_to. rewrite slice_app_prefix by (pose proof (len_nonneg pre); lia).
  reflexivity.
Qed.

Lemma slice_from_app1 pre b post :
  slice_from (pre ++ b :: post) (len pre + 1) = Some post.
Proof.
  replace (pre ++ b :: post) with ((pre ++ [b]) ++ post)
    by (now rewrite <- app_assoc).
  replace (len pre + 1) with (len (pre ++ [b]))
    by (rewrite len_app, len_cons, len_nil; lia).
  apply slice_from_app.
Qed.

Lemma escape_total k : Valid k -> exists k', escapeMetricName k = Some k'.
Proof. intros V. rewrite escape_valid by exact V. eauto. Qed.

Lemma parseTag_total tag sep st :
  Valid tag -> sep < 0x80 -> exists st', parseTag tag sep st = Some st'.
Proof.
  intros V Hs. unfold parseTag.
  destruct (len tag =? 0); [eauto|].
  destruct (find _ _) as [e|] eqn:F; [|eauto].
  apply find_some in F as [HI HR]. apply Z.eqb_eq in HR.
  destruct (range_In_ascii _ _ _ _ HI ltac:(lia)) as (pre & b & post & -> & Hi & Hr).
  rewrite Z.add_0_l in Hi. rewrite Hi, slice_to_app, slice_from_app1.
  cbn [mbind option_bind].
  destruct ((len pre =? 0) || (len post =? 0)); [eauto|].
  apply Valid_cut in V as [Vp _]; [|lia].
  destruct (escape_total pre Vp) as [k' ->]. cbn. eauto.
Qed.

Lemma trimLeftHash_total s :
  Valid s -> exists s', trimLeftHash s = Some s' /\ Valid s'.
Proof.
  intros V. unfold trimLeftHash, streq.
  destruct s as [|b t]; [exists []; split; [reflexivity | constructor]|].
  rewrite bool_decide_eq_false_2 by discriminate. cbn [negb].
  rewrite byte_at_0. cbn [mbind option_bind].
  destruct (Z.eqb_spec (byteval b) 35) as [E|_]; [|eauto].
  change (b :: t) with ([] ++ b :: t).
  change 1 with (len (@nil ascii) + 1). rewrite slice_from_app1.
  exists t. split; [reflexivity|].
  apply (Valid_cut [] b t) in V as [_ V]; [exact V | lia].
Qed.

Section TagLoop.

Variable h : gostring -> env -> option env.
Hypothesis h_total : forall tag st, Valid tag -> exists st', h tag st = Some st'.

Lemma tags_fold_total component l :
  StronglySorted index_lt l ->
  (forall e, In e l -> In e (utf8.range component)) ->
  forall sc,
    (forall e, In e l -> lastTagEndIndex sc <= utf8.index e) ->
    0 <= lastTagEndIndex sc <= len component ->
    Valid (skipn (Z.to_nat (lastTagEndIndex sc)) component) ->
    exists sc',
      fold_left (tags_step h component) l (Some sc) = Some sc'
      /\ 0 <= lastTagEndIndex sc' <= len component
      /\ Valid (skipn (Z.to_nat (lastTagEndIndex sc')) component).
Proof.
  induction 1 as [|e l SS IH HF]; intros Hin sc LB B V; [cbn; eauto|].
  cbn [fold_left]. unfold tags_step at 2. cbn [mbind option_bind].
  assert (Hin' : forall e', In e' l -> In e' (utf8.range component))
    by (intros; apply Hin; now right).
  destruct (Z.eqb_spec (utf8.rune e) 44) as [E|_].
  - destruct (range_In_ascii _ _ _ _ (Hin e (or_introl eq_refl)) ltac:(lia))
      as (pre & b & post & -> & Hi & Hr).
    rewrite Z.add_0_l in Hi. pose proof (LB e (or_introl eq_refl)) as Le.
    rewrite Hi in *. rewrite slice_app_prefix by lia.
    cbn [mbind option_bind].
    rewrite skipn_app_le in V by (unfold len in Le; lia).
    apply Valid_cut in V as [Vt Vp]; [|lia].
    destruct (h_total _ (scanned sc) Vt) as [st' ->]. cbn [mbind option_bind].
    apply IH; cbn [lastTagEndIndex]; auto.
    + intros e' I'. rewrite List.Forall_forall in HF. specialize (HF e' I').
      unfold index_lt in HF. lia.
    + rewrite len_app, len_cons. pose proof (len_nonneg pre).
      pose proof (len_nonneg post). lia.
    + replace (pre ++ b :: post) with ((pre ++ [b]) ++ post)
        by (now rewrite <- app_assoc).
      replace (Z.to_nat (len pre + 1)) with (length (pre ++ [b]))
        by (rewrite length_app; unfold len; cbn; lia).
      now rewrite skipn_app, skipn_all, Nat.sub_diag.
  - apply IH; auto. intros e' I'. apply LB. now right.
Qed.

Lemma tags_loop_total component st :
  Valid component ->
  exists st',
    (sc ← fold_left (tags_step h component) (utf8.range component)
                    (Some (TagScan 0 st));
     if lastTagEndIndex sc <? len component then
       tag ← slice_from component (lastTagEndIndex sc);
       h tag (scanned sc)
     else Some (scanned sc)) = Some st'.
Proof.
  intros V.
  destruct (tags_fold_total component (utf8.range component)
              (range_sorted _ _ _) (fun e H => H) (TagScan 0 st))
    as (sc' & -> & B & V'); cbn [lastTagEndIndex].
  - intros e H. now apply range_index_lb in H.
  - pose proof (len_nonneg component). lia.
  - exact V.
  - cbn [mbind option_bind].
    destruct (lastTagEndIndex sc' <? len component); [|eauto].
    rewrite slice_from_all by lia. cbn [mbind option_bind].
    now apply h_total.
Qed.

End TagLoop.

Lemma parseNameTags_total component st :
  Valid component -> exists st', parseNameTags component st = Some st'.
Proof.
  intros V.
  apply (tags_loop_total (fun tag st => parseTag tag 61 st)); [|exact V].
  intros tag st0 Vt. now apply parseTag_total.
Qed.

Lemma fold_left_pointwise {A B} (f g : A -> B -> A) l :
  (forall a b, f a b = g a b) -> forall a, fold_left f l a = fold_left g l a.
Proof.
  intros H. induction l as [|x l IH]; intros a; cbn; [reflexivity|].
  now rewrite H, IH.
Qed.

Lemma parseDogStatsDTags_step_tags component sc e :
  parseDogStatsDTags_step component sc e
  = tags_step (fun tag st => tag' ← trimLeftHash tag; parseTag tag' 58 st)
              component sc e.
Proof.
  unfold parseDogStatsDTags_step, tags_step.
  destruct sc as [sc|]; cbn [mbind option_bind]; [|reflexivity].
  destruct (utf8.rune e =? 44); [|reflexivity].
  destruct (slice _ _ _) as [tag|]; cbn [mbind option_bind]; [|reflexivity].
  destruct (trimLeftHash tag); reflexivity.
Qed.

Lemma parseDogStatsDTags_total component st :
  Valid component -> exists st', parseDogStatsDTags component st = Some st'.
Proof.
  intros V. unfold parseDogStatsDTags.
  rewrite (fold_left_pointwise _ _ _ (parseDogStatsDTags_step_tags component)).
  destruct (tags_loop_total
              (fun tag st => tag' ← trimLeftHash tag; parseTag tag' 58 st))
    with (component := component) (st := st) as [st' E]; [|exact V|].
  - intros tag st0 Vt.
    destruct (trimLeftHash_total tag Vt) as (tag' & -> & Vt').
    cbn [mbind option_bind]. now apply parseTag_total.
  - exists st'. rewrite <- E.
    destruct (fold_left _ _ _) as [sc|]; cbn [mbind option_bind]; [|reflexivity].
    destruct (_ <? _); [|reflexivity].
    destruct (slice_from _ _); reflexivity.
Qed.

Lemma parseNameAndTags_total name st :
  Valid name ->
  exists metric st', parseNameAndTags name st = Some (metric, st').
Proof.
  intros V. unfold parseNameAndTags.
  destruct (find _ _) as [e|] eqn:F; [|eauto].
  apply find_some in F as [HI HR].
  assert (A : utf8.rune e < 0x80).
  { apply orb_true_iff in HR as [HR|HR]; apply Z.eqb_eq in HR; lia. }
  destruct (range_In_ascii _ _ _ _ HI A) as (pre & b & post & -> & Hi & Hr).
  rewrite Z.add_0_l in Hi. rewrite Hi, slice_from_app1, slice_to_app.
  cbn [mbind option_bind].
  apply Valid_cut in V as [_ Vp]; [|lia].
  destruct (parseNameTags_total post st Vp) as [st' ->]. cbn. eauto.
Qed.

(** ** The line parser does not panic *)

Section ParserTotal.

Variable ParseFloat : gostring -> float * bool.
Variable unrepresentable : float -> Z.

Lemma component_step_total statType sm component :
  Valid component -> component <> [] ->
  exists sm',
    component_step ParseFloat unrepresentable statType (Some sm) component
    = Some sm'.
Proof.
  intros V N. destruct component as [|b t]; [easy|].
  unfold component_step. cbn [mbind option_bind]. rewrite byte_at_0.
  cbn [mbind option_bind].
  assert (S1 : slice_from (b :: t) 1 = Some t).
  { change (b :: t) with ([] ++ b :: t).
    change 1 with (len (@nil ascii) + 1). apply slice_from_app1. }
  rewrite S1. cbn [mbind option_bind].
  destruct (byteval b =? 64).
  - destruct (ParseFloat t) as [f err].
    destruct (streq statType (str "g")); [eauto|].
    destruct (streq statType (str "c")); [eauto|].
    destruct (is_timer_type statType); eauto.
  - destruct (Z.eqb_spec (byteval b) 35) as [E|_]; [|eauto].
    apply (Valid_cut [] b t) in V as [_ V]; [|lia].
    destruct (parseDogStatsDTags_total t (s_env sm) V) as [st' ->].
    cbn. eauto.
Qed.

Lemma components_total statType l :
  Forall Valid l -> Forall (fun c => c <> []) l ->
  forall sm, exists sm',
    fold_left (component_step ParseFloat unrepresentable statType) l (Some sm)
    = Some sm'.
Proof.
  induction l as [|c l IH]; intros V N sm; [cbn; eauto|].
  inversion V; inversion N; subst. cbn [fold_left].
  destruct (component_step_total statType sm c) as [sm' ->]; auto.
Qed.

Lemma existsb_empty_false (l : list gostring) :
  existsb (fun c => len c =? 0) l = false -> Forall (fun c => c <> []) l.
Proof.
  induction l as [|c l IH]; cbn [existsb]; intros H; constructor.
  - apply orb_false_iff in H as [H _]. intros ->. discriminate.
  - apply IH. now apply orb_false_iff in H as [_ H].
Qed.

Lemma Forall_skipn {A} (P : A -> Prop) n l :
  Forall P l -> Forall P (skipn n l).
Proof.
  intros H. rewrite <- (firstn_skipn n l) in H.
  now apply Forall_app in H as [_ H].
Qed.

Lemma sample_step_total metric st sample :
  Valid sample ->
  exists st',
    sample_step ParseFloat unrepresentable metric (Some st) sample = Some st'.
Proof.
  intros V. unfold sample_step. cbn [mbind option_bind].
  pose proof (Valid_Split sample "|"%char V ltac:(reflexivity)) as VC.
  destruct (strings.Split sample "|") as [|c0 [|c1 rest]] eqn:E;
    [cbn; eauto | cbn; eauto|].
  destruct ((len (c0 :: c1 :: rest) <? 2) || (4 <? len (c0 :: c1 :: rest)));
    [eauto|].
  cbn [nth_error mbind option_bind].
  destruct (ParseFloat c0) as [v err]. destruct err; [eauto|].
  destruct ((3 <=? len (c0 :: c1 :: rest)) && existsb _ _) eqn:X; [eauto|].
  destruct (3 <=? len (c0 :: c1 :: rest)) eqn:L3; cbn [mbind option_bind];
    [|eauto].
  cbn [andb] in X. apply existsb_empty_false in X.
  destruct (components_total c1 (skipn 2 (c0 :: c1 :: rest))
              (Forall_skipn _ 2 _ VC) X
              (Sampler v 1 (inc samplesReceived st))) as [sm' ->].
  cbn. eauto.
Qed.

Lemma samples_total metric l :
  Forall Valid l ->
  forall st, exists st',
    fold_left (sample_step ParseFloat unrepresentable metric) l (Some st)
    = Some st'.
Proof.
  induction l as [|s l IH]; intros V st; [cbn; eauto|].
  inversion V; subst. cbn [fold_left].
  destruct (sample_step_total metric st s) as [st' ->]; auto.
Qed.

(** For every line the parser returns. *)
Lemma lineToEvents_total line :
  exists evs log,
    lineToEvents ParseFloat unrepresentable line = Some (evs, log).
Proof.
  unfold lineToEvents. destruct (streq line []); [eauto|].
  destruct (SplitN2_cases line ":"%char) as [[-> _] | (a & b & -> & E & _)];
    [eauto|].
  destruct (len a =? 0); cbn [orb]; [eauto|].
  destruct (utf8.ValidString line) eqn:VS; cbn [negb]; [|eauto].
  apply ValidString_Valid in VS. rewrite E in VS.
  apply Valid_cut in VS as [Va Vb]; [|reflexivity].
  destruct (parseNameAndTags_total a (Env ∅ [] []) Va) as (metric & st & ->).
  cbn [mbind option_bind].
  destruct (strings.Contains b (str "|#")).
  - destruct (0 <? Z.of_nat (size (labels st))); [eauto|].
    destruct (samples_total metric [b] ltac:(repeat constructor; exact Vb) st)
      as [st' ->].
    cbn. eauto.
  - destruct (samples_total metric (strings.Split b ":"%char)
                (Valid_Split b ":"%char Vb ltac:(reflexivity)) st) as [st' ->].
    cbn. eauto.
Qed.

End ParserTotal.

(** ** The name escaping: claims *)

(** X1. For every name that is valid UTF-8, [escapeMetricName]
    returns the escaping the specification words: an underscore in front
    of a leading digit, every rune outside [[A-Za-z0-9_]] (of one byte or
    of several) replaced by exactly one underscore, every other byte kept.
    The result has identifier bytes only and does not start with a digit,
    and a name that already is of that form is returned unchanged. *)
Theorem escapeMetricName_valid_utf8 (n : gostring) :
  utf8.ValidString n = true ->
  escapeMetricName n = Some (escape_spec n)
  /\ Forall ident (escape_spec n)
  /\ no_leading_digit (escape_spec n)
  /\ (Forall ident n -> no_leading_digit n -> escape_spec n = n).
Proof.
  intros V. apply ValidString_Valid in V.
  pose proof (escape_valid n V) as E.
  destruct (escape_result _ _ E) as [H N].
  repeat split; auto.
  intros Hn Nn. pose proof (escape_fixed n Hn Nn) as F. congruence.
Qed.

Lemma escapeMetricName_valid_utf8_witness :
  utf8.ValidString (str "1st.café") = true
  /\ escapeMetricName (str "1st.café") = Some (escape_spec (str "1st.café"))
  /\ Forall ident (escape_spec (str "1st.café"))
  /\ no_leading_digit (escape_spec (str "1st.café"))
  /\ (Forall ident (str "1st.café") -> no_leading_digit (str "1st.café") ->
      escape_spec (str "1st.café") = str "1st.café").
Proof.
  split; [vm_compute; reflexivity|].
  apply (escapeMetricName_valid_utf8 (str "1st.café")). vm_compute. reflexivity.
Defined.

Example escape_spec_example : escape_spec (str "1st.café") = str "_1st_caf_".
Proof. vm_compute. reflexivity. Qed.

(** C1. On the name of the two bytes [FF FF], which is not valid UTF-8,
    [escapeMetricName] does not return the two underscores the claim
    asks for: over an invalid byte the loop advances by one byte but
    moves [offset] by [RuneLen(RuneError) = 3], and at the second byte
    the slice expression [metricName[3:1]] panics. *)
Lemma escapeMetricName_invalid_utf8_panics :
  escapeMetricName ["255"%char; "255"%char] = None.
Proof. vm_compute. reflexivity. Qed.

(** C2. On that name the first call of [escapeMetricName] panics, so the
    composition of the claim has no value and does not equal a result
    of [escapeMetricName]. *)
Lemma escapeMetricName_composition_panics :
  (escapeMetricName ["255"%char; "255"%char] ≫= escapeMetricName) = None
  /\ forall r, escapeMetricName ["255"%char; "255"%char] <> Some r.
Proof. split; [vm_compute; reflexivity|]. intros r. vm_compute. discriminate. Qed.

Example escape_invalid_drops :
  escapeMetricName ("255"%char :: str "ab") = Some (str "_").
Proof. vm_compute. reflexivity. Qed.

(** ** The line parser: claims *)

Lemma Split_nonempty s sep : strings.Split s sep <> [].
Proof.
  destruct s as [|c s]; cbn [strings.Split]; [discriminate|].
  destruct (Ascii.eqb c sep); [discriminate|].
  destruct (strings.Split s sep); discriminate.
Qed.

Lemma Split_snoc p sep :
  strings.Split (p ++ [sep]) sep = strings.Split p sep ++ [[]].
Proof.
  induction p as [|c p IH]; cbn [app strings.Split].
  - now rewrite Ascii.eqb_refl.
  - rewrite IH. destruct (Ascii.eqb c sep); [reflexivity|].
    pose proof (Split_nonempty p sep).
    destruct (strings.Split p sep); [easy | reflexivity].
Qed.

(** [Split] and [SplitN] agree on the first part and on whether there is a
    second one. *)
Lemma Split_SplitN2 s sep :
  hd [] (strings.Split s sep) = hd [] (strings.SplitN2 s sep)
  /\ (len (strings.Split s sep) < 2 <-> len (strings.SplitN2 s sep) < 2).
Proof.
  induction s as [|c s [IH1 IH2]]; cbn [strings.Split strings.SplitN2].
  - split; [reflexivity | tauto].
  - destruct (Ascii.eqb c sep).
    + split; [reflexivity|]. rewrite !len_cons, len_nil.
      pose proof (Split_nonempty s sep). pose proof (len_nonneg (strings.Split s sep)).
      destruct (strings.Split s sep); [easy|]. rewrite len_cons.
      pose proof (len_nonneg l0). lia.
    + pose proof (Split_nonempty s sep).
      destruct (strings.Split s sep) as [|x xs]; [easy|].
      destruct (strings.SplitN2 s sep) as [|y ys].
      * cbn in IH1. rewrite len_nil in IH2. rewrite len_cons in IH2.
        pose proof (len_nonneg xs). split; [cbn; now f_equal|].
        rewrite !len_cons, len_nil in *. lia.
      * cbn in IH1. subst y. split; [reflexivity|].
        rewrite !len_cons in *. exact IH2.
Qed.

Section ParserClaims.

Variable ParseFloat : gostring -> float * bool.
Variable unrepresentable : float -> Z.


(** A line that is not empty and is malformed is rejected as such. *)
Lemma lineToEvents_malformed line :
  line <> [] -> malformed_line line ->
  lineToEvents ParseFloat unrepresentable line = Some ([], [sampleErrors "malformed_line"]).
Proof.
  intros N M. unfold lineToEvents, streq.
  rewrite bool_decide_eq_false_2 by exact N.
  destruct (Split_SplitN2 line ":"%char) as [H1 H2]. unfold malformed_line in M.
  rewrite H1, H2 in M.
  destruct (strings.SplitN2 line ":") as [|name [|rest l]];
    [reflexivity | reflexivity|].
  destruct M as [M | [M | M]].
  - rewrite !len_cons in M. pose proof (len_nonneg l). lia.
  - cbn in M. subst name. reflexivity.
  - rewrite M. cbn [negb]. now rewrite orb_true_r.
Qed.

Lemma handlePacket_total_aux l : forall acc,
  exists r,
    fold_left
      (fun acc line =>
         '(queued, log) ← acc;
         '(evs, log') ← lineToEvents ParseFloat unrepresentable line;
         Some (queued ++ [evs], log ++ [linesReceived] ++ log'))
      l (Some acc) = Some r.
Proof.
  induction l as [|line l IH]; intros acc; [cbn; eauto|].
  cbn [fold_left]. destruct acc as [queued log].
  destruct (lineToEvents_total ParseFloat unrepresentable line) as (evs & log' & E).
  cbn [mbind option_bind]. rewrite E. cbn [mbind option_bind]. apply IH.
Qed.

(** C10. The empty line yields no event and increments no counter, although
    it has fewer than two colon-separated parts; so the empty line that
    follows a final newline of a packet only queues an empty batch and
    counts as a line received. *)
Theorem lineToEvents_empty_line_ignored :
  len (strings.Split [] ":"%char) < 2
  /\ lineToEvents ParseFloat unrepresentable [] = Some ([], [])
  /\ forall first packet, exists queued log,
       handlePacket ParseFloat unrepresentable first packet = Some (queued, log)
       /\ handlePacket ParseFloat unrepresentable first (packet ++ ["010"%char])
          = Some (queued ++ [[]], log ++ [linesReceived]).
Proof.
  split; [reflexivity|]. split; [reflexivity|]. intros first packet.
  unfold handlePacket. rewrite Split_snoc, fold_left_app.
  destruct (handlePacket_total_aux (strings.Split packet "010") ([], [first]))
    as [[queued log] E].
  exists queued, log. rewrite E. split; reflexivity.
Qed.

End ParserClaims.

(** ** Sampling factors and tagging styles *)

Lemma Split_none a sep : ~ In sep a -> strings.Split a sep = [a].
Proof.
  induction a as [|c a IH]; intros N; [reflexivity|].
  cbn [strings.Split].
  destruct (Ascii.eqb_spec c sep) as [->|_]; [exfalso; apply N; now left|].
  rewrite IH; [reflexivity|]. intros H. apply N. now right.
Qed.

Lemma Split_app a b sep :
  ~ In sep a -> strings.Split (a ++ sep :: b) sep = a :: strings.Split b sep.
Proof.
  induction a as [|c a IH]; intros N; cbn [app strings.Split].
  - now rewrite Ascii.eqb_refl.
  - destruct (Ascii.eqb_spec c sep) as [->|_]; [exfalso; apply N; now left|].
    rewrite IH; [reflexivity|]. intros H. apply N. now right.
Qed.




Section SampleClaims.

Variable ParseFloat : gostring -> float * bool.
Variable unrepresentable : float -> Z.




Lemma labels_tagged st : labels (tagged st) = labels st.
Proof. unfold tagged. now destruct (_ <? _). Qed.

Lemma events_tagged st : events (tagged st) = events st.
Proof. unfold tagged. now destruct (_ <? _). Qed.





Lemma count_app m l1 l2 : count m (l1 ++ l2) = (count m l1 + count m l2)%nat.
Proof. unfold count. now rewrite List.filter_app, length_app. Qed.




Lemma count_repeat_other m x k : x <> m -> count m (repeat x k) = 0%nat.
Proof.
  intros N. induction k as [|k IH]; [reflexivity|].
  cbn [repeat]. unfold count in *. cbn [List.filter].
  now rewrite bool_decide_eq_false_2.
Qed.

(** C6. When the part after the name contains [|#], a line from whose name
    part at least one tag was extracted is dropped whole, with no event,
    as [mixed_tagging_styles]; otherwise that part is one sample, not
    split at its colons. *)
Theorem dogstatsd_tags_single_sample
    (name rest metric : gostring) (st : env) :
  name <> [] -> ~ In ":"%char name ->
  utf8.ValidString (name ++ str ":" ++ rest) = true ->
  strings.Contains rest (str "|#") = true ->
  parseNameAndTags name (Env ∅ [] []) = Some (metric, st) ->
  (0 < Z.of_nat (size (labels st)) ->
   lineToEvents ParseFloat unrepresentable (name ++ str ":" ++ rest)
   = Some ([], telemetry st ++ [sampleErrors "mixed_tagging_styles"]))
  /\ (size (labels st) = 0%nat ->
      lineToEvents ParseFloat unrepresentable (name ++ str ":" ++ rest)
      = (st' ← sample_step ParseFloat unrepresentable metric (Some st) rest;
         Some (events st', telemetry st'))).
Proof.
  intros N NC V C P.
  assert (L : lineToEvents ParseFloat unrepresentable (name ++ str ":" ++ rest)
              = if 0 <? Z.of_nat (size (labels st))
                then Some ([], telemetry st
                               ++ [sampleErrors "mixed_tagging_styles"])
                else st' ← sample_step ParseFloat unrepresentable metric
                                       (Some st) rest;
                     Some (events st', telemetry st')).
  { unfold lineToEvents, streq.
    rewrite bool_decide_eq_false_2 by (destruct name; [easy | discriminate]).
    change (name ++ str ":" ++ rest) with (name ++ ":"%char :: rest) in *.
    rewrite SplitN2_app by exact NC. rewrite V.
    destruct (Z.eqb_spec (len name) 0) as [E|_];
      [apply len_zero in E; contradiction|].
    cbn [orb negb]. rewrite P. cbn [mbind option_bind]. rewrite C.
    reflexivity. }
  rewrite L. split.
  - intros S. now destruct (Z.ltb_spec 0 (Z.of_nat (size (labels st)))); [|lia].
  - intros S. rewrite S. reflexivity.
Qed.

End SampleClaims.




Lemma dogstatsd_tags_single_sample_witness :
  lineToEvents ParseFloat_decimal (fun _ => 0)
               (str "my.metric,host=a:5|c|#env:prod")
  = Some ([], [sampleErrors "mixed_tagging_styles"]).
Proof.
  refine (proj1 (dogstatsd_tags_single_sample ParseFloat_decimal (fun _ => 0)
                   (str "my.metric,host=a") (str "5|c|#env:prod")
                   (str "my.metric")
                   (Env (<[str "host" := str "a"]> ∅) [] [])
                   _ _ eq_refl eq_refl _) _).
  - discriminate.
  - intros H. repeat (destruct H as [H|H]; [discriminate|]). exact H.
  - vm_compute. reflexivity.
  - vm_compute. reflexivity.
Defined.

(** ** Which lines count as malformed *)

Lemma extends_refl st : extends st st.
Proof. exists []. split; [now rewrite app_nil_r | constructor]. Qed.

Lemma extends_trans st1 st2 st3 :
  extends st1 st2 -> extends st2 st3 -> extends st1 st3.
Proof.
  intros (a & E1 & Q1) (b & E2 & Q2). exists (a ++ b). split.
  - now rewrite E2, E1, app_assoc.
  - now apply Forall_app.
Qed.

Lemma extends_inc m st : quiet m -> extends st (inc m st).
Proof. intros Q. exists [m]. split; [reflexivity | now constructor]. Qed.

Lemma extends_same st st' : telemetry st' = telemetry st -> extends st st'.
Proof. intros E. exists []. split; [now rewrite app_nil_r | constructor]. Qed.

Create HintDb quiet.
#[local] Hint Resolve extends_refl extends_inc extends_same : quiet.
#[local] Hint Extern 1 (quiet _) => discriminate : quiet.

Lemma parseTag_extends tag sep st st' :
  parseTag tag sep st = Some st' -> extends st st'.
Proof.
  unfold parseTag. destruct (len tag =? 0); [intros [= <-]; auto with quiet|].
  destruct (find _ _) as [e|]; [|intros [= <-]; auto with quiet].
  destruct (slice_to _ _) as [k|]; [|discriminate].
  destruct (slice_from _ _) as [v|]; [|discriminate].
  cbn [mbind option_bind].
  destruct (_ || _); [intros [= <-]; auto with quiet|].
  destruct (escapeMetricName k) as [k'|]; [|discriminate].
  intros [= <-]. auto with quiet.
Qed.

Section TagLoopExtends.

Variable h : gostring -> env -> option env.
Hypothesis h_extends : forall tag st st', h tag st = Some st' -> extends st st'.

Lemma tags_fold_extends component l : forall sc sc',
  fold_left (tags_step h component) l (Some sc) = Some sc' ->
  extends (scanned sc) (scanned sc').
Proof.
  induction l as [|e l IH]; intros sc sc'; cbn [fold_left].
  - intros [= <-]. auto with quiet.
  - unfold tags_step at 2. cbn [mbind option_bind].
    destruct (utf8.rune e =? 44); [|apply IH].
    destruct (slice _ _ _) as [tag|]; cbn [mbind option_bind].
    2:{ rewrite fold_left_None by reflexivity. discriminate. }
    destruct (h tag (scanned sc)) as [st1|] eqn:H; cbn [mbind option_bind].
    2:{ rewrite fold_left_None by reflexivity. discriminate. }
    intros F. apply IH in F. cbn [scanned] in F.
    eapply extends_trans; [eapply h_extends; exact H | exact F].
Qed.

Lemma tags_loop_extends component st st' :
  (sc ← fold_left (tags_step h component) (utf8.range component)
                  (Some (TagScan 0 st));
   if lastTagEndIndex sc <? len component then
     tag ← slice_from component (lastTagEndIndex sc);
     h tag (scanned sc)
   else Some (scanned sc)) = Some st' ->
  extends st st'.
Proof.
  destruct (fold_left _ _ _) as [sc|] eqn:F; [|discriminate].
  apply tags_fold_extends in F. cbn [scanned mbind option_bind] in *.
  destruct (_ <? _).
  - destruct (slice_from _ _) as [tag|]; [|discriminate].
    cbn [mbind option_bind]. intros H. apply h_extends in H.
    eapply extends_trans; eassumption.
  - intros [= <-]. exact F.
Qed.

End TagLoopExtends.

Lemma parseNameTags_extends component st st' :
  parseNameTags component st = Some st' -> extends st st'.
Proof.
  apply (tags_loop_extends (fun tag st => parseTag tag 61 st)).
  intros tag st0 st1. apply parseTag_extends.
Qed.

Lemma dogstatsd_tag_extends tag st st' :
  (tag' ← trimLeftHash tag; parseTag tag' 58 st) = Some st' -> extends st st'.
Proof.
  destruct (trimLeftHash tag); cbn [mbind option_bind];
    [apply parseTag_extends | discriminate].
Qed.

Lemma parseDogStatsDTags_extends component st st' :
  parseDogStatsDTags component st = Some st' -> extends st st'.
Proof.
  intros H.
  apply (tags_loop_extends
           (fun tag st => tag' ← trimLeftHash tag; parseTag tag' 58 st)
           dogstatsd_tag_extends component).
  rewrite <- H. unfold parseDogStatsDTags.
  rewrite (fold_left_pointwise _ _ _ (parseDogStatsDTags_step_tags component)).
  destruct (fold_left _ _ _) as [sc|]; cbn [mbind option_bind]; [|reflexivity].
  destruct (_ <? _); [|reflexivity].
  destruct (slice_from _ _); reflexivity.
Qed.

Lemma parseNameAndTags_extends name st metric st' :
  parseNameAndTags name st = Some (metric, st') -> extends st st'.
Proof.
  unfold parseNameAndTags. destruct (find _ _) as [e|].
  - destruct (slice_from _ _) as [tags|]; [|discriminate].
    cbn [mbind option_bind].
    destruct (parseNameTags tags st) as [st1|] eqn:P; [|discriminate].
    cbn [mbind option_bind].
    destruct (slice_to _ _); [|discriminate].
    intros [= _ <-]. now apply parseNameTags_extends in P.
  - intros [= _ <-]. auto with quiet.
Qed.

Section ParserExtends.

Variable ParseFloat : gostring -> float * bool.
Variable unrepresentable : float -> Z.

Lemma component_step_extends statType sm component sm' :
  component_step ParseFloat unrepresentable statType (Some sm) component
  = Some sm' ->
  extends (s_env sm) (s_env sm').
Proof.
  unfold component_step. cbn [mbind option_bind].
  destruct (byte_at component 0) as [c0|]; [|discriminate].
  cbn [mbind option_bind].
  destruct (byteval c0 =? 64).
  - destruct (slice_from component 1) as [rest|]; [|discriminate].
    cbn [mbind option_bind]. destruct (ParseFloat rest) as [f err].
    assert (X : extends (s_env sm)
                  (if err then inc (sampleErrors "invalid_sample_factor")
                                   (s_env sm) else s_env sm))
      by (destruct err; auto with quiet).
    destruct (streq statType (str "g")); [intros [= <-]; exact X|].
    destruct (streq statType (str "c")); [intros [= <-]; exact X|].
    destruct (is_timer_type statType); intros [= <-]; exact X.
  - destruct (byteval c0 =? 35).
    + destruct (slice_from component 1) as [rest|]; [|discriminate].
      cbn [mbind option_bind].
      destruct (parseDogStatsDTags rest (s_env sm)) as [st1|] eqn:P;
        [|discriminate].
      intros [= <-]. now apply parseDogStatsDTags_extends in P.
    + intros [= <-]. cbn [s_env]. auto with quiet.
Qed.

Lemma components_extends statType l : forall sm sm',
  fold_left (component_step ParseFloat unrepresentable statType) l (Some sm)
  = Some sm' ->
  extends (s_env sm) (s_env sm').
Proof.
  induction l as [|c l IH]; intros sm sm'; cbn [fold_left].
  - intros [= <-]. auto with quiet.
  - destruct (component_step _ _ _ (Some sm) c) as [sm1|] eqn:C.
    + intros F. apply IH in F. apply component_step_extends in C.
      eapply extends_trans; eassumption.
    + rewrite fold_left_None by reflexivity. discriminate.
Qed.

Lemma emit_extends n statType metric value relative : forall st,
  extends st (emit n statType metric value relative st).
Proof.
  induction n as [|n IH]; intros st; cbn [emit]; [auto with quiet|].
  eapply extends_trans; [|apply IH].
  destruct (buildEvent _ _ _ _ _); auto with quiet.
Qed.

Lemma sample_step_extends metric st sample st' :
  sample_step ParseFloat unrepresentable metric (Some st) sample = Some st' ->
  extends st st'.
Proof.
  unfold sample_step. cbn [mbind option_bind].
  assert (S0 : extends st (inc samplesReceived st)) by auto with quiet.
  assert (S1 : forall r, extends st (inc (sampleErrors r) (inc samplesReceived st))
                         \/ r = "malformed_line"%string).
  { intros r. destruct (string_dec r "malformed_line") as [->|N]; [now right|].
    left. eapply extends_trans; [exact S0|]. apply extends_inc.
    intros [= E]. contradiction. }
  destruct (_ || _).
  { intros [= <-]. now destruct (S1 "malformed_component"%string). }
  destruct (nth_error _ 0) as [valueStr|]; [|discriminate].
  destruct (nth_error _ 1) as [statType|]; [|discriminate].
  cbn [mbind option_bind]. destruct (ParseFloat valueStr) as [value err].
  destruct err.
  { intros [= <-]. now destruct (S1 "malformed_value"%string). }
  destruct (_ && _).
  { intros [= <-]. now destruct (S1 "malformed_component"%string). }
  match goal with
  | |- (?x ≫= _) = _ -> _ => destruct x as [sm|] eqn:F; [|discriminate]
  end.
  cbn [mbind option_bind]. intros [= <-].
  assert (X : extends (inc samplesReceived st) (s_env sm)).
  { destruct (3 <=? _).
    - now apply components_extends in F.
    - injection F as <-. auto with quiet. }
  eapply extends_trans; [exact S0|].
  eapply extends_trans; [exact X|].
  eapply extends_trans; [|apply emit_extends].
  destruct (_ <? _); auto with quiet.
Qed.

Lemma samples_extends metric l : forall st st',
  fold_left (sample_step ParseFloat unrepresentable metric) l (Some st)
  = Some st' ->
  extends st st'.
Proof.
  induction l as [|s l IH]; intros st st'; cbn [fold_left].
  - intros [= <-]. auto with quiet.
  - destruct (sample_step _ _ _ (Some st) s) as [st1|] eqn:S.
    + intros F. apply IH in F. apply sample_step_extends in S.
      eapply extends_trans; eassumption.
    + rewrite fold_left_None by reflexivity. discriminate.
Qed.

(** Only the test at the head of [lineToEvents] counts [malformed_line]. *)
Lemma lineToEvents_malformed_only line evs log :
  lineToEvents ParseFloat unrepresentable line = Some (evs, log) ->
  In (sampleErrors "malformed_line") log ->
  line <> [] /\ malformed_line line.
Proof.
  unfold lineToEvents, streq. destruct (decide (line = [])) as [->|N].
  { intros [= <- <-] []. }
  rewrite bool_decide_eq_false_2 by exact N. intros H I. split; [exact N|]. unfold malformed_line.
  destruct (Split_SplitN2 line ":"%char) as [H1 H2]. rewrite H1, H2.
  destruct (strings.SplitN2 line ":") as [|name [|rest l]];
    [left; rewrite len_nil; lia | left; rewrite len_cons, len_nil; lia|].
  cbn [hd].
  destruct (Z.eqb_spec (len name) 0) as [E|_];
    [right; left; now apply len_zero|].
  destruct (utf8.ValidString line); [|auto].
  exfalso. cbn [orb negb] in H.
  destruct (parseNameAndTags name _) as [[metric st]|] eqn:P;
    [|cbn [mbind option_bind] in H; discriminate H].
  apply parseNameAndTags_extends in P as (a & Ea & Qa).
  cbn [mbind option_bind telemetry app] in H, Ea.
  assert (Q : forall st', extends st st' ->
                          ~ In (sampleErrors "malformed_line") (telemetry st')).
  { intros st' (b & Eb & Qb) I'. rewrite Eb, Ea in I'.
    apply in_app_or in I' as [I'|I'].
    - rewrite List.Forall_forall in Qa. now apply (Qa _ I').
    - rewrite List.Forall_forall in Qb. now apply (Qb _ I'). }
  destruct (strings.Contains rest (str "|#")).
  - destruct (0 <? _).
    + injection H as <- <-. apply in_app_or in I as [I|I].
      * now apply (Q st (extends_refl st)).
      * destruct I as [I|[]]. discriminate I.
    + destruct (fold_left _ _ _) as [st'|] eqn:F; [|discriminate].
      injection H as <- <-. apply samples_extends in F. now apply (Q st').
  - destruct (fold_left _ _ _) as [st'|] eqn:F; [|discriminate].
    injection H as <- <-. apply samples_extends in F. now apply (Q st').
Qed.

(** C7 (as amended). A line that is not empty is rejected as
    [malformed_line] exactly when it has fewer than two colon-separated
    parts, an empty name part, or is not valid UTF-8; the rejection leaves
    no event and that one counter.  (The empty line is not counted.) *)
Theorem malformed_line_exactly (line : gostring) :
  line <> [] ->
  ((exists evs log,
      lineToEvents ParseFloat unrepresentable line = Some (evs, log)
      /\ In (sampleErrors "malformed_line") log)
   <-> malformed_line line)
  /\ (malformed_line line ->
      lineToEvents ParseFloat unrepresentable line
      = Some ([], [sampleErrors "malformed_line"])).
Proof.
  intros N. split; [split|].
  - intros (evs & log & E & I).
    now destruct (lineToEvents_malformed_only line evs log E I).
  - intros M. exists [], [sampleErrors "malformed_line"].
    split; [now apply lineToEvents_malformed | now left].
  - now apply lineToEvents_malformed.
Qed.

End ParserExtends.

Lemma malformed_line_exactly_witness :
  str "foo" <> []
  /\ malformed_line (str "foo")
  /\ lineToEvents ParseFloat_decimal (fun _ => 0) (str "foo")
     = Some ([], [sampleErrors "malformed_line"]).
Proof.
  assert (N : str "foo" <> []) by discriminate.
  assert (M : malformed_line (str "foo")) by (left; reflexivity).
  split; [exact N|]. split; [exact M|].
  exact (proj2 (malformed_line_exactly ParseFloat_decimal (fun _ => 0)
                  (str "foo") N) M).
Defined.

(** The claim of C7 fails on the empty line: it has fewer than two
    colon-separated parts, yet it is not rejected as [malformed_line]: no
    counter is incremented. *)
Lemma empty_line_not_malformed_line :
  malformed_line []
  /\ lineToEvents ParseFloat_decimal (fun _ => 0) [] = Some ([], []).
Proof. split; [left; reflexivity | reflexivity]. Qed.

(** ** The exporter: claims *)

Section DispatchClaims.

Variable GetMapping :
  gostring -> MetricType -> option MetricMapping * Labels * bool.
Variable Defaults : MapperDefaults.
Variable registry : Type.
Variable collector : Type.
Variable getCounter getGauge getHistogram getSummary :
  registry -> gostring -> Labels -> gostring -> MetricMapping
  -> registry * option collector.

Lemma dispatched_tests mapping present :
  dispatched mapping present ->
  bool_decide (Action mapping = ActionTypeDrop) = false
  /\ present && streq (Name mapping) [] = false.
Proof.
  intros [D N]. split; [now apply bool_decide_eq_false_2|].
  destruct present; [|reflexivity]. cbn [andb]. unfold streq.
  apply bool_decide_eq_false_2. now apply N.
Qed.

(** C8. A timer event that passes the mapping is observed on the kind its
    mapping's timer type names if set, else the defaults', else on a
    summary; the value observed is the event's value divided by 1000. *)
Theorem handleEvent_timer
    (b : world registry collector) (name : gostring) (v : float)
    (labels0 labels : Labels) (found : option MetricMapping) (present : bool)
    (metricName : gostring) :
  GetMapping name MetricTypeTimer = (found, labels, present) ->
  dispatched (mapping_of Defaults found) present ->
  escapeMetricName (if present then Name (mapping_of Defaults found) else name)
  = Some metricName ->
  let mapping := mapping_of Defaults found in
  let prometheusLabels := if present then labels ∪ labels0 else labels0 in
  let observed get :=
    handleEvent GetMapping Defaults getCounter getGauge getHistogram getSummary
                b (TimerEvent name v labels0)
    = Some (Returned
              (match get (registry_of b) metricName prometheusLabels
                         (help_of mapping) mapping with
               | (r, Some c) =>
                 World r (counters b ++ [action_counter mapping present;
                                         eventStats "timer"])
                       (calls b ++ [Observe c (PrimFloat.div v 1000)])
               | (r, None) =>
                 World r (counters b ++ [action_counter mapping present;
                                         conflictingEventStats "timer"])
                       (calls b)
               end)) in
  match effective_timer_type Defaults mapping with
  | TimerTypeHistogram => observed getHistogram
  | TimerTypeSummary => observed getSummary
  | _ =>
    exists w,
      handleEvent GetMapping Defaults getCounter getGauge getHistogram
                  getSummary b (TimerEvent name v labels0)
      = Some (Exited 1 w)
  end.
Proof.
  intros G D E mapping prometheusLabels observed.
  destruct (dispatched_tests _ _ D) as [T1 T2].
  subst observed. unfold handleEvent. cbn [MetricName EventMetricType].
  rewrite G. fold (mapping_of Defaults found). fold mapping.
  unfold mapping in T1, T2, E. fold mapping in T1, T2, E.
  rewrite T1, T2, E. cbn [mbind option_bind EventLabels Value].
  fold (help_of mapping). fold prometheusLabels.
  unfold effective_timer_type, update, incr, action_counter.
  destruct (TimerType_ mapping) eqn:TT;
    [destruct (DefaultTimerType Defaults) eqn:DT| | |];
    cbn [bool_decide decide_rel]; cbn;
    try (destruct present; cbn [registry_of counters calls];
         match goal with
         | |- context [?get (registry_of b) metricName prometheusLabels
                           (help_of mapping) mapping] =>
           destruct (get (registry_of b) metricName prometheusLabels
                         (help_of mapping) mapping) as [r [c|]]
         end; cbn [registry_of counters calls]; rewrite <- ?app_assoc;
         reflexivity);
    eauto.
Qed.

(** C9. A counter event with a negative value never reaches the registry:
    however [handleEvent] ends, it returns with the registry and the calls
    made on metric objects unchanged; and when the event passes the
    mapping, the only counter incremented after the mapping's own is
    [illegal_negative_counter]. *)
Theorem handleEvent_negative_counter
    (b : world registry collector) (name : gostring) (v : float)
    (labels0 : Labels) :
  PrimFloat.ltb v 0 = true ->
  (forall out,
     handleEvent GetMapping Defaults getCounter getGauge getHistogram getSummary
                 b (CounterEvent name v labels0) = Some out ->
     exists w, out = Returned w /\ registry_of w = registry_of b
               /\ calls w = calls b)
  /\ (forall found labels present metricName,
        GetMapping name MetricTypeCounter = (found, labels, present) ->
        dispatched (mapping_of Defaults found) present ->
        escapeMetricName
          (if present then Name (mapping_of Defaults found) else name)
        = Some metricName ->
        handleEvent GetMapping Defaults getCounter getGauge getHistogram
                    getSummary b (CounterEvent name v labels0)
        = Some (Returned
                  (World (registry_of b)
                         (counters b
                          ++ [action_counter (mapping_of Defaults found) present;
                              errorEventStats "illegal_negative_counter"])
                         (calls b)))).
Proof.
  intros Neg. split.
  - intros out. unfold handleEvent. cbn [MetricName EventMetricType].
    destruct (GetMapping name MetricTypeCounter) as [[found labels] present].
    fold (mapping_of Defaults found).
    destruct (bool_decide _).
    { intros [= <-]. eexists. repeat split. }
    destruct (present && _).
    { intros [= <-]. eexists. repeat split. }
    destruct (escapeMetricName _) as [metricName|]; [|discriminate].
    cbn [mbind option_bind Value]. rewrite Neg.
    intros [= <-]. eexists. split; [reflexivity|].
    destruct present; split; reflexivity.
  - intros found labels present metricName G D E.
    destruct (dispatched_tests _ _ D) as [T1 T2].
    unfold handleEvent. cbn [MetricName EventMetricType].
    rewrite G. fold (mapping_of Defaults found).
    rewrite T1, T2, E. cbn [mbind option_bind Value]. rewrite Neg.
    unfold incr, action_counter.
    destruct present; cbn [registry_of counters calls];
      now rewrite <- app_assoc.
Qed.

End DispatchClaims.

Lemma handleEvent_timer_witness :
  no_mapping (str "foo.bar") MetricTypeTimer = (None, ∅, false)
  /\ dispatched (mapping_of plain_defaults None) false
  /\ escapeMetricName (str "foo.bar") = Some (str "foo_bar")
  /\ handleEvent no_mapping plain_defaults counting_get counting_get
                 counting_get counting_get (World 0%nat [] [])
                 (TimerEvent (str "foo.bar") 320 ∅)
     = Some (Returned
               (World 1%nat [eventsUnmapped; eventStats "timer"]
                      [Observe (str "foo_bar") (PrimFloat.div 320 1000)])).
Proof.
  assert (D : dispatched (mapping_of plain_defaults None) false)
    by (split; [discriminate | intros [=]]).
  split; [reflexivity|]. split; [exact D|]. split; [reflexivity|].
  exact (handleEvent_timer no_mapping plain_defaults nat gostring
           counting_get counting_get counting_get counting_get
           (World 0%nat [] []) (str "foo.bar") 320 ∅ ∅ None false
           (str "foo_bar") eq_refl D eq_refl).
Defined.

Lemma handleEvent_negative_counter_witness :
  PrimFloat.ltb (-1) 0 = true
  /\ handleEvent no_mapping plain_defaults counting_get counting_get
                 counting_get counting_get (World 0%nat [] [])
                 (CounterEvent (str "foo") (-1) ∅)
     = Some (Returned
               (World 0%nat
                      [eventsUnmapped; errorEventStats "illegal_negative_counter"]
                      [])).
Proof.
  split; [reflexivity|].
  refine (proj2 (handleEvent_negative_counter no_mapping plain_defaults
                   nat gostring counting_get counting_get counting_get
                   counting_get (World 0%nat [] []) (str "foo") (-1) ∅ eq_refl)
                None ∅ false (str "foo") eq_refl _ eq_refl).
  split; [discriminate | intros [=]].
Defined.

(** * The parser, sample by sample *)

(** ** Scanning a string for an ASCII byte *)

Lemma Decode_bytes b0 t c w :
  utf8.DecodeRuneInString (b0 :: t) = (c, w) ->
  (w = 1 /\ (byteval b0 < 0x80 /\ c = byteval b0
             \/ high b0 /\ 0x80 <= c))
  \/ (2 <= w /\ 0x80 <= c
      /\ exists r t', b0 :: t = r ++ t' /\ len r = w /\ Forall high r).
Proof.
  intros D. pose proof (Decode_cases _ _ _ _ D) as C.
  pose proof (byteval_range b0) as R0.
  assert (A : byteval b0 < 0x80 -> c = byteval b0 /\ w = 1).
  { intros H. rewrite Decode_ascii in D by exact H. now injection D as <- <-. }
  destruct (Z.ltb_spec (byteval b0) 0x80) as [Lo|Hi].
  { destruct (A Lo) as [-> ->]. left. auto. }
  destruct C as [(-> & H & ->) | [(-> & ->) | (H1 & H2 & H3 & _)]].
  - lia.
  - left. split; [reflexivity|]. right. split; [exact Hi|].
    unfold utf8.RuneError. lia.
  - right. split; [lia|]. split; [exact H1|].
    unfold utf8.DecodeRuneInString in D.
    destruct (Z.ltb_spec (byteval b0) 128); [lia|].
    destruct ((194 <=? byteval b0) && (byteval b0 <=? 223)).
    { destruct t as [|b1 t]; [injection D as <- <-; lia|].
      destruct (utf8.cont (byteval b1)) eqn:C1; [|injection D as <- <-; lia].
      injection D as <- <-. apply cont_range in C1.
      exists [b0; b1], t. repeat split. repeat constructor; unfold high; lia. }
    destruct ((224 <=? byteval b0) && (byteval b0 <=? 239)).
    { destruct t as [|b1 [|b2 t]]; try (injection D as <- <-; lia).
      destruct (utf8.second (byteval b0) (byteval b1)) eqn:C1;
        [|injection D as <- <-; lia].
      destruct (utf8.cont (byteval b2)) eqn:C2; [|injection D as <- <-; lia].
      injection D as <- <-. apply second_range in C1. apply cont_range in C2.
      exists [b0; b1; b2], t. repeat split.
      repeat constructor; unfold high; lia. }
    destruct ((240 <=? byteval b0) && (byteval b0 <=? 244)).
    { destruct t as [|b1 [|b2 [|b3 t]]]; try (injection D as <- <-; lia).
      destruct (utf8.second (byteval b0) (byteval b1)) eqn:C1;
        [|injection D as <- <-; lia].
      destruct (utf8.cont (byteval b2)) eqn:C2; [|injection D as <- <-; lia].
      destruct (utf8.cont (byteval b3)) eqn:C3; [|injection D as <- <-; lia].
      injection D as <- <-. apply second_range in C1. apply cont_range in C2.
      apply cont_range in C3.
      exists [b0; b1; b2; b3], t. repeat split.
      repeat constructor; unfold high; lia. }
    injection D as <- <-. lia.
Qed.


Lemma pending_0 s : pending 0 s.
Proof. split; [lia | constructor]. Qed.

Lemma pending_S k b t : pending (S k) (b :: t) -> high b /\ pending k t.
Proof.
  intros [L F]. cbn [firstn length] in *. inversion F; subst.
  split; [assumption|]. split; [lia | assumption].
Qed.

Lemma Decode_pending b0 t c w :
  utf8.DecodeRuneInString (b0 :: t) = (c, w) ->
  pending (Z.to_nat (w - 1)) t
  /\ (c < 0x80 -> c = byteval b0) /\ (0x80 <= c -> high b0).
Proof.
  intros D. destruct (Decode_bytes _ _ _ _ D)
    as [(-> & [(Lo & ->) | (Hi & Hc)]) | (W & Hc & r & t' & E & L & F)].
  - split; [apply pending_0|]. split; [auto | lia].
  - split; [apply pending_0|]. split; [lia | auto].
  - destruct r as [|x r]; [rewrite len_nil in L; lia|].
    injection E as -> ->. rewrite len_cons in L. subst w.
    inversion F as [|? ? Hx Hr].
    split; [|split; [lia | auto]].
    split.
    + rewrite length_app. unfold len. lia.
    + replace (Z.to_nat (len r + 1 - 1)) with (length r) by (unfold len; lia).
      now rewrite firstn_app, firstn_all, Nat.sub_diag, firstn_0, app_nil_r.
Qed.

Section Scan.

Variable P : Z -> bool.
Hypothesis P_ascii : forall c, P c = true -> c < 0x80.

Lemma P_high b : high b -> P (byteval b) = false.
Proof.
  intros H. destruct (P (byteval b)) eqn:E; [|reflexivity].
  apply P_ascii in E. unfold high in H. lia.
Qed.

(** Looking for an ASCII rune with [range] finds the first byte that is
    one, in any string. *)
Lemma find_range_scan s : forall i k,
  pending k s ->
  match find (fun e => P (utf8.rune e)) (utf8.range_from i k s) with
  | Some e =>
    exists pre b post,
      s = pre ++ b :: post
      /\ Forall (fun x => P (byteval x) = false) pre
      /\ P (byteval b) = true
      /\ utf8.index e = i + len pre /\ utf8.rune e = byteval b
  | None => Forall (fun x => P (byteval x) = false) s
  end.
Proof.
  induction s as [|b0 t IH]; intros i k Pk; [constructor|].
  cbn [utf8.range_from]. destruct k as [|k].
  - destruct (utf8.DecodeRuneInString (b0 :: t)) as [c w] eqn:D.
    destruct (Decode_pending _ _ _ _ D) as (Pw & Lo & Hi).
    cbn [find utf8.rune]. destruct (P c) eqn:Pc.
    + pose proof (P_ascii _ Pc) as A. rewrite (Lo A) in *.
      exists [], b0, t. rewrite len_nil. repeat split; auto. cbn. lia.
    + assert (Pb : P (byteval b0) = false).
      { destruct (Z.ltb_spec c 0x80) as [A|A];
          [now rewrite <- (Lo A) | now apply P_high, Hi]. }
      specialize (IH (i + 1) _ Pw).
      destruct (find _ _) as [e|].
      * destruct IH as (pre & b & post & -> & F & Pb' & Hi' & Hr).
        exists (b0 :: pre), b, post. rewrite len_cons.
        repeat split; auto. lia.
      * now constructor.
  - apply pending_S in Pk as [Hb Pk]. specialize (IH (i + 1) k Pk).
    destruct (find _ _) as [e|].
    + destruct IH as (pre & b & post & -> & F & Pb' & Hi' & Hr).
      exists (b0 :: pre), b, post. rewrite len_cons.
      repeat split; auto; [|lia]. constructor; [now apply P_high | exact F].
    + constructor; [now apply P_high | exact IH].
Qed.

Lemma find_range_first pre b post :
  Forall (fun x => P (byteval x) = false) pre -> P (byteval b) = true ->
  exists e,
    find (fun e => P (utf8.rune e)) (utf8.range (pre ++ b :: post)) = Some e
    /\ utf8.index e = len pre.
Proof.
  intros F Pb. pose proof (find_range_scan (pre ++ b :: post) 0 0 (pending_0 _)) as H.
  unfold utf8.range. destruct (find _ _) as [e|].
  - destruct H as (pre' & b' & post' & E & F' & Pb' & Hi & _).
    exists e. split; [reflexivity|]. rewrite Hi, Z.add_0_l. f_equal.
    clear Hi. revert pre' E F'. induction pre as [|x pre IH]; intros pre' E F'.
    + destruct pre' as [|y pre']; [reflexivity|]. injection E as -> _.
      inversion F'; subst. congruence.
    + inversion F; subst. destruct pre' as [|y pre'].
      * injection E as -> _. congruence.
      * injection E as -> E. inversion F'; subst. f_equal. now apply IH.
  - exfalso. apply Forall_app in H as [_ H]. inversion H; subst. congruence.
Qed.

Lemma find_range_none s :
  Forall (fun x => P (byteval x) = false) s ->
  find (fun e => P (utf8.rune e)) (utf8.range s) = None.
Proof.
  intros F. pose proof (find_range_scan s 0 0 (pending_0 _)) as H.
  unfold utf8.range. destruct (find _ _) as [e|]; [|reflexivity].
  destruct H as (pre & b & post & -> & _ & Pb & _).
  apply Forall_app in F as [_ F]. inversion F; subst. congruence.
Qed.

End Scan.

Lemma not_In_scan (b : ascii) (s : gostring) :
  ~ In b s -> Forall (fun x => (byteval x =? byteval b) = false) s.
Proof.
  intros N. apply List.Forall_forall. intros x I. apply Z.eqb_neq.
  intros E. apply byteval_inj in E. subst. contradiction.
Qed.

Lemma scan_not_In (b : ascii) (s : gostring) :
  Forall (fun x => (byteval x =? byteval b) = false) s -> ~ In b s.
Proof.
  intros F I. rewrite List.Forall_forall in F. specialize (F _ I).
  now rewrite Z.eqb_refl in F.
Qed.

Lemma eqb_ascii_only (b : ascii) :
  byteval b < 0x80 -> forall c, (c =? byteval b) = true -> c < 0x80.
Proof. intros H c E. apply Z.eqb_eq in E. lia. Qed.

Lemma len_pos_nonempty {A} (l : list A) : l <> [] -> (len l =? 0) = false.
Proof.
  intros N. apply Z.eqb_neq. intros E. apply len_zero in E. contradiction.
Qed.

(** [parseTag] cuts the tag at its first separator. *)
Lemma parseTag_cut (b : ascii) (k v : gostring) (st : env) :
  byteval b < 0x80 -> ~ In b k ->
  parseTag (k ++ b :: v) (byteval b) st
  = if (len k =? 0) || (len v =? 0) then Some (inc tagErrors st)
    else k' ← escapeMetricName k; Some (set_label k' v st).
Proof.
  intros Hb Nk. unfold parseTag.
  rewrite len_pos_nonempty by (destruct k; discriminate).
  destruct (find_range_first (fun c => c =? byteval b) (eqb_ascii_only b Hb)
              k b v (not_In_scan b k Nk) (Z.eqb_refl _)) as (e & -> & Hi).
  cbv zeta. rewrite Hi, slice_to_app, slice_from_app1. reflexivity.
Qed.

Lemma parseTag_no_separator (b : ascii) (tag : gostring) (st : env) :
  byteval b < 0x80 -> ~ In b tag ->
  parseTag tag (byteval b) st = Some (inc tagErrors st).
Proof.
  intros Hb N. unfold parseTag. destruct (len tag =? 0); [reflexivity|].
  now rewrite (find_range_none (fun c => c =? byteval b) (eqb_ascii_only b Hb)
                 tag (not_In_scan b tag N)).
Qed.

(** Every string is cut at the first occurrence of a byte, or has none. *)
Lemma first_occurrence (b : ascii) (s : gostring) :
  ~ In b s \/ exists k v, s = k ++ b :: v /\ ~ In b k.
Proof.
  induction s as [|c s IH]; [left; intros []|].
  destruct (ascii_dec c b) as [->|N].
  - right. exists [], s. split; [reflexivity | intros []].
  - destruct IH as [NI | (k & v & -> & NI)].
    + left. intros [?|?]; [congruence | auto].
    + right. exists (c :: k), v. split; [reflexivity|].
      intros [?|?]; [congruence | auto].
Qed.

(** [parseNameAndTags] cuts the name at its first [#] or [,]. *)
Lemma parseNameAndTags_cut (m tags : gostring) (c : ascii) (st : env) :
  c = "#"%char \/ c = ","%char ->
  ~ In "#"%char m -> ~ In ","%char m ->
  parseNameAndTags (m ++ c :: tags) st
  = (st' ← parseNameTags tags st; Some (m, st')).
Proof.
  intros Hc N1 N2. unfold parseNameAndTags.
  destruct (find_range_first (fun r => (r =? 35) || (r =? 44))) with
    (pre := m) (b := c) (post := tags) as (e & -> & Hi).
  - intros r H. apply orb_true_iff in H as [H|H]; apply Z.eqb_eq in H; lia.
  - apply List.Forall_forall. intros x I. apply orb_false_iff. split.
    + apply Z.eqb_neq. intros E. apply (byteval_inj x "#"%char) in E.
      subst. contradiction.
    + apply Z.eqb_neq. intros E. apply (byteval_inj x ","%char) in E.
      subst. contradiction.
  - destruct Hc as [-> | ->]; reflexivity.
  - rewrite Hi, slice_from_app1, slice_to_app. cbn [mbind option_bind].
    destruct (parseNameTags tags st); reflexivity.
Qed.

Lemma parseNameAndTags_plain (name : gostring) (st : env) :
  ~ In "#"%char name -> ~ In ","%char name ->
  parseNameAndTags name st = Some (name, st).
Proof.
  intros N1 N2. unfold parseNameAndTags.
  rewrite (find_range_none (fun r => (r =? 35) || (r =? 44))); [reflexivity| |].
  - intros r H. apply orb_true_iff in H as [H|H]; apply Z.eqb_eq in H; lia.
  - apply List.Forall_forall. intros x I. apply orb_false_iff. split.
    + apply Z.eqb_neq. intros E. apply (byteval_inj x "#"%char) in E.
      subst. contradiction.
    + apply Z.eqb_neq. intros E. apply (byteval_inj x ","%char) in E.
      subst. contradiction.
Qed.

(** ** The tag loops, tag by tag *)

Lemma tags_of_nil : tags_of [] = [].
Proof. reflexivity. Qed.

Lemma tags_of_one cur : ~ In ","%char cur -> cur <> [] -> tags_of cur = [cur].
Proof.
  intros N E. unfold tags_of. rewrite Split_none by exact N.
  cbn [List.last]. destruct cur; [contradiction | reflexivity].
Qed.

Lemma tags_of_cons cur t :
  ~ In ","%char cur -> tags_of (cur ++ ","%char :: t) = cur :: tags_of t.
Proof.
  intros N. unfold tags_of. rewrite Split_app by exact N.
  pose proof (Split_nonempty t ","%char) as NE.
  destruct (strings.Split t ",") as [|x l]; [contradiction|].
  change (List.last (cur :: x :: l) []) with (List.last (x :: l) []).
  change (List.removelast (cur :: x :: l))
    with (cur :: List.removelast (x :: l)).
  destruct (List.last (x :: l) []); reflexivity.
Qed.

Lemma each_tag_None h l : fold_left (each_tag h) l None = None.
Proof. apply fold_left_None. reflexivity. Qed.

Lemma tags_fold_pieces h component suf : forall pre skip sc,
  component = pre ++ suf ->
  pending skip suf ->
  0 <= lastTagEndIndex sc <= len pre ->
  ~ In ","%char (skipn (Z.to_nat (lastTagEndIndex sc)) pre) ->
  tags_finish h component
    (fold_left (tags_step h component)
               (utf8.range_from (len pre) skip suf) (Some sc))
  = fold_left (each_tag h)
              (tags_of (skipn (Z.to_nat (lastTagEndIndex sc)) pre ++ suf))
              (Some (scanned sc)).
Proof.
  induction suf as [|b t IH]; intros pre skip sc Hc Pk B N.
  - rewrite app_nil_r in Hc. subst pre. rewrite app_nil_r.
    cbn [utf8.range_from fold_left]. unfold tags_finish.
    cbn [mbind option_bind].
    destruct (Z.ltb_spec (lastTagEndIndex sc) (len component)).
    + rewrite slice_from_all by lia. cbn [mbind option_bind].
      rewrite tags_of_one; [reflexivity | exact N|].
      intros E. apply (f_equal (@length ascii)) in E.
      rewrite length_skipn in E. unfold len in *. cbn in E. lia.
    + replace (skipn _ component) with (@nil ascii)
        by (symmetry; apply skipn_all2; unfold len in *; lia).
      reflexivity.
  - assert (Hc' : component = (pre ++ [b]) ++ t)
      by (rewrite <- app_assoc; exact Hc).
    assert (Hl : len (pre ++ [b]) = len pre + 1)
      by (rewrite len_app, len_cons, len_nil; lia).
    assert (Sk : skipn (Z.to_nat (lastTagEndIndex sc)) (pre ++ [b])
                 = skipn (Z.to_nat (lastTagEndIndex sc)) pre ++ [b])
      by (apply skipn_app_le; unfold len in B; lia).
    assert (Keep : b <> ","%char ->
              tags_finish h component
                (fold_left (tags_step h component)
                   (utf8.range_from (len pre + 1)
                      (match skip with
                       | O => Z.to_nat
                                (snd (utf8.DecodeRuneInString (b :: t)) - 1)
                       | S k => k
                       end) t) (Some sc))
              = fold_left (each_tag h)
                  (tags_of (skipn (Z.to_nat (lastTagEndIndex sc)) pre
                            ++ b :: t))
                  (Some (scanned sc))).
    { intros Nb. rewrite <- Hl.
      rewrite (IH (pre ++ [b]) _ sc Hc'); [now rewrite Sk, <- app_assoc| |lia|].
      - destruct skip as [|k].
        + destruct (utf8.DecodeRuneInString (b :: t)) as [c w] eqn:D.
          now destruct (Decode_pending _ _ _ _ D).
        + now apply pending_S in Pk.
      - rewrite Sk. intros I. apply in_app_or in I as [I|[I|[]]]; auto. }
    cbn [utf8.range_from]. destruct skip as [|k].
    + destruct (utf8.DecodeRuneInString (b :: t)) as [c w] eqn:D.
      cbn [snd] in Keep. cbn [fold_left]. unfold tags_step at 2.
      cbn [mbind option_bind utf8.rune utf8.index].
      destruct (Z.eqb_spec c 44) as [E|NE].
      * destruct (Decode_valid_char _ _ _ _ D ltac:(lia)) as [Hb ->].
        assert (b = ","%char) by (apply byteval_inj; rewrite <- Hb; exact E).
        subst b.
        assert (S : slice component (lastTagEndIndex sc) (len pre)
                    = Some (skipn (Z.to_nat (lastTagEndIndex sc)) pre))
          by (rewrite Hc; apply slice_app_prefix; lia).
        rewrite S. cbn [mbind option_bind]. rewrite tags_of_cons by exact N.
        cbn [fold_left]. unfold each_tag at 2. cbn [mbind option_bind].
        destruct (h _ (scanned sc)) as [st1|]; cbn [mbind option_bind].
        -- rewrite <- Hl.
           rewrite (IH (pre ++ [","%char]) _
                       (TagScan (len (pre ++ [","%char])) st1) Hc');
             cbn [lastTagEndIndex scanned].
           ++ unfold len. rewrite Nat2Z.id, skipn_all. reflexivity.
           ++ apply pending_0.
           ++ pose proof (len_nonneg (pre ++ [","%char])). lia.
           ++ unfold len. rewrite Nat2Z.id, skipn_all. intros [].
        -- rewrite fold_left_None by reflexivity. now rewrite each_tag_None.
      * apply Keep. intros ->. rewrite Decode_ascii in D by reflexivity.
        injection D as <- _. apply NE. reflexivity.
    + apply Keep. intros ->. apply pending_S in Pk as [Hb _].
      unfold high in Hb. change (byteval ","%char) with 44 in Hb. lia.
Qed.

(** A tag loop handles the tags of the component in turn. *)
Lemma tags_loop_pieces h component st :
  tags_finish h component
    (fold_left (tags_step h component) (utf8.range component)
               (Some (TagScan 0 st)))
  = fold_left (each_tag h) (tags_of component) (Some st).
Proof.
  unfold utf8.range. change 0 with (len (@nil ascii)) at 1.
  rewrite (tags_fold_pieces h component component [] 0 (TagScan 0 st));
    cbn [lastTagEndIndex scanned Z.to_nat skipn app]; auto.
  - apply pending_0.
  - unfold len. cbn. lia.
Qed.

Lemma parseNameTags_pieces component st :
  parseNameTags component st
  = fold_left (each_tag (fun tag st => parseTag tag 61 st))
              (tags_of component) (Some st).
Proof.
  rewrite <- tags_loop_pieces. reflexivity.
Qed.

Lemma parseDogStatsDTags_pieces component st :
  parseDogStatsDTags component st
  = fold_left
      (each_tag (fun tag st => tag' ← trimLeftHash tag; parseTag tag' 58 st))
      (tags_of component) (Some st).
Proof.
  rewrite <- tags_loop_pieces. unfold parseDogStatsDTags, tags_finish.
  rewrite (fold_left_pointwise _ _ _ (parseDogStatsDTags_step_tags component)).
  destruct (fold_left _ _ _) as [sc|]; cbn [mbind option_bind]; [|reflexivity].
  destruct (_ <? _); [|reflexivity].
  destruct (slice_from _ _); reflexivity.
Qed.

(** ** What the parsers leave behind *)

Lemma escape_nonempty k r : escapeMetricName k = Some r -> k <> [] -> r <> [].
Proof.
  unfold escapeMetricName. destruct k as [|b t]; [easy|]. intros H _.
  rewrite len_cons in H. pose proof (len_nonneg t) as L.
  destruct (Z.eqb_spec (len t + 1) 0) as [?|_]; [lia|].
  rewrite byte_at_0 in H. cbn [mbind option_bind] in H.
  destruct (fold_left _ _ _) as [st'|] eqn:F; [|discriminate].
  unfold utf8.range in F. change 0 with (len (@nil ascii)) in F at 1.
  apply (escape_fold_inv (b :: t)) with (pre := []) in F; [|reflexivity|].
  - destruct F as [I1 I2 I3 I4 I5 _]. cbn [mbind option_bind] in H.
    destruct (escaped st') eqn:E; cbn [negb] in H.
    + destruct (I5 eq_refl) as [N1 N2].
      destruct (offset st' <? len t + 1).
      * destruct (slice_from _ _); [|discriminate]. injection H as <-.
        intros X. apply app_eq_nil in X as [X _]. contradiction.
      * now injection H as <-.
    + injection H as <-. discriminate.
  - destruct (is_digit (byteval b)) eqn:Dg; constructor; cbn [offset sb escaped];
      try lia; try (now constructor); try (intros [=]); auto.
Qed.

Lemma keys_ok_empty : keys_ok ∅.
Proof. intros k v H. rewrite lookup_empty in H. discriminate. Qed.

Lemma keys_ok_insert l k v :
  keys_ok l -> k <> [] -> Forall ident k -> no_leading_digit k -> v <> [] ->
  keys_ok (<[k := v]> l).
Proof.
  intros K H1 H2 H3 H4 k' v' L.
  destruct (decide (k = k')) as [<-|N].
  - rewrite lookup_insert_eq in L. injection L as <-. auto.
  - rewrite lookup_insert_ne in L by exact N. now apply K.
Qed.

Lemma tag_effect_refl st : tag_effect st st.
Proof.
  split; [reflexivity|]. split; [|auto].
  exists 0%nat. cbn. now rewrite app_nil_r.
Qed.

Lemma tag_effect_trans st1 st2 st3 :
  tag_effect st1 st2 -> tag_effect st2 st3 -> tag_effect st1 st3.
Proof.
  intros (E1 & (n1 & T1) & K1) (E2 & (n2 & T2) & K2).
  split; [congruence|]. split; [|auto].
  exists (n1 + n2)%nat. now rewrite T2, T1, <- app_assoc, repeat_app.
Qed.

Lemma tag_effect_error st : tag_effect st (inc tagErrors st).
Proof.
  split; [reflexivity|]. split; [|auto]. now exists 1%nat.
Qed.

Lemma parseTag_effect tag sep st st' :
  parseTag tag sep st = Some st' -> tag_effect st st'.
Proof.
  unfold parseTag.
  destruct (len tag =? 0); [intros [= <-]; apply tag_effect_error|].
  destruct (find _ _) as [e|]; [|intros [= <-]; apply tag_effect_error].
  destruct (slice_to _ _) as [k|]; [|discriminate].
  destruct (slice_from _ _) as [v|]; [|discriminate].
  cbn [mbind option_bind].
  destruct (Z.eqb_spec (len k) 0) as [?|Nk];
    [intros [= <-]; apply tag_effect_error|].
  destruct (Z.eqb_spec (len v) 0) as [?|Nv];
    [intros [= <-]; apply tag_effect_error|].
  cbn [orb]. destruct (escapeMetricName k) as [k'|] eqn:E; [|discriminate].
  intros [= <-]. split; [reflexivity|]. split.
  - exists 0%nat. cbn. now rewrite app_nil_r.
  - intros K. cbn [set_label labels].
    destruct (escape_result _ _ E) as [H1 H2].
    apply keys_ok_insert; auto.
    + apply (escape_nonempty _ _ E). intros ->. now rewrite len_nil in Nk.
    + intros ->. now rewrite len_nil in Nv.
Qed.

Lemma each_tag_effect h :
  (forall tag st st', h tag st = Some st' -> tag_effect st st') ->
  forall l st st',
    fold_left (each_tag h) l (Some st) = Some st' -> tag_effect st st'.
Proof.
  intros H l. induction l as [|tag l IH]; intros st st'; cbn [fold_left].
  - intros [= <-]. apply tag_effect_refl.
  - unfold each_tag at 2. cbn [mbind option_bind].
    destruct (h tag st) as [st1|] eqn:E.
    + intros F. eapply tag_effect_trans; [eapply H; exact E | now apply IH].
    + rewrite each_tag_None. discriminate.
Qed.

Lemma parseNameTags_effect component st st' :
  parseNameTags component st = Some st' -> tag_effect st st'.
Proof.
  rewrite parseNameTags_pieces. apply each_tag_effect.
  intros tag st0 st1. apply parseTag_effect.
Qed.

Lemma parseDogStatsDTags_effect component st st' :
  parseDogStatsDTags component st = Some st' -> tag_effect st st'.
Proof.
  rewrite parseDogStatsDTags_pieces. apply each_tag_effect.
  intros tag st0 st1. destruct (trimLeftHash tag); cbn [mbind option_bind];
    [apply parseTag_effect | discriminate].
Qed.

Lemma parseNameAndTags_effect name st metric st' :
  parseNameAndTags name st = Some (metric, st') -> tag_effect st st'.
Proof.
  unfold parseNameAndTags. destruct (find _ _) as [e|].
  - destruct (slice_from _ _) as [tags|]; [|discriminate].
    cbn [mbind option_bind].
    destruct (parseNameTags tags st) as [st1|] eqn:P; [|discriminate].
    cbn [mbind option_bind].
    destruct (slice_to _ _); [|discriminate].
    intros [= _ <-]. now apply parseNameTags_effect in P.
  - intros [= _ <-]. apply tag_effect_refl.
Qed.

Lemma Forall_repeat {A} (P : A -> Prop) x n : P x -> Forall P (repeat x n).
Proof. intros H. induction n; cbn; constructor; auto. Qed.

Lemma noise_tagErrors n : Forall component_noise (repeat tagErrors n).
Proof. apply Forall_repeat. now left. Qed.

Lemma component_effect_inc component st :
  component_effect component st
                   (inc (sampleErrors "invalid_sample_factor") st).
Proof.
  split; [reflexivity|]. split; [|split; [auto|reflexivity]].
  exists [sampleErrors "invalid_sample_factor"]. split; [reflexivity|].
  constructor; [now right|constructor].
Qed.

Lemma component_effect_refl component st : component_effect component st st.
Proof.
  split; [reflexivity|]. split; [|split; [auto|reflexivity]].
  exists []. split; [now rewrite app_nil_r|constructor].
Qed.

Lemma buildEvent_fields statType metric value relative labels ev :
  buildEvent statType metric value relative labels = inl ev ->
  MetricName ev = metric /\ EventLabels ev = labels /\ Value ev = value.
Proof.
  unfold buildEvent.
  destruct (streq statType (str "c")); [now intros [= <-]|].
  destruct (streq statType (str "g")); [now intros [= <-]|].
  destruct (is_timer_type statType); [now intros [= <-]|].
  destruct (streq statType (str "s")); discriminate.
Qed.

Lemma emit_effect n statType metric value relative : forall st,
  let st' := emit n statType metric value relative st in
  labels st' = labels st
  /\ (exists k, telemetry st'
                = telemetry st ++ repeat (sampleErrors "illegal_event") k)
  /\ exists new,
       events st' = events st ++ new
       /\ Forall (fun ev => MetricName ev = metric
                            /\ EventLabels ev = labels st) new.
Proof.
  induction n as [|n IH]; intros st; cbn [emit].
  - split; [reflexivity|]. split.
    + exists 0%nat. cbn. now rewrite app_nil_r.
    + exists []. split; [now rewrite app_nil_r|constructor].
  - destruct (buildEvent statType metric value relative (labels st))
      as [ev|msg] eqn:B.
    + destruct (IH (append_event ev st)) as (L & (k & T) & new & E & F).
      cbn [append_event labels telemetry events] in *.
      split; [exact L|]. split; [now exists k|].
      exists (ev :: new). split.
      * rewrite E, <- app_assoc. reflexivity.
      * constructor; [|exact F].
        apply buildEvent_fields in B. tauto.
    + destruct (IH (inc (sampleErrors "illegal_event") st))
        as (L & (k & T) & new & E & F).
      cbn [inc labels telemetry events] in *.
      split; [exact L|]. split; [|now exists new].
      exists (S k). rewrite T, <- app_assoc. reflexivity.
Qed.

Section SampleEffects.

Variable ParseFloat : gostring -> float * bool.
Variable unrepresentable : float -> Z.

Lemma component_step_effect statType sm component sm' :
  component_step ParseFloat unrepresentable statType (Some sm) component
  = Some sm' ->
  component_effect component (s_env sm) (s_env sm').
Proof.
  unfold component_step. cbn [mbind option_bind].
  destruct component as [|c0 rest].
  { unfold byte_at. cbn. discriminate. }
  rewrite byte_at_0. cbn [mbind option_bind].
  destruct (Z.eqb_spec (byteval c0) 64) as [E64|N64].
  - destruct (slice_from _ _); [|discriminate]. cbn [mbind option_bind].
    destruct (ParseFloat l) as [f err].
    assert (C : component_effect (c0 :: rest) (s_env sm)
                  (if err then inc (sampleErrors "invalid_sample_factor") (s_env sm)
                   else s_env sm)).
    { destruct err; [apply component_effect_inc|apply component_effect_refl]. }
    destruct (streq statType (str "g")); [now intros [= <-]|].
    destruct (streq statType (str "c")); [now intros [= <-]|].
    destruct (is_timer_type statType); now intros [= <-].
  - destruct (Z.eqb_spec (byteval c0) 35) as [E35|N35].
    + destruct (slice_from _ _); [|discriminate]. cbn [mbind option_bind].
      destruct (parseDogStatsDTags l (s_env sm)) as [st|] eqn:P; [|discriminate].
      cbn [mbind option_bind]. intros [= <-]. cbn [s_env].
      apply parseDogStatsDTags_effect in P as (E & (n & T) & K).
      split; [exact E|]. split; [|split; [exact K|]].
      * exists (repeat tagErrors n). split; [exact T|apply noise_tagErrors].
      * cbn [starts_hash]. intros H. apply Z.eqb_neq in H. contradiction.
    + intros [= <-]. cbn [s_env]. apply component_effect_inc.
Qed.

Lemma components_effect statType l : forall sm sm',
  fold_left (component_step ParseFloat unrepresentable statType) l (Some sm)
  = Some sm' ->
  events (s_env sm') = events (s_env sm)
  /\ (exists added,
        telemetry (s_env sm') = telemetry (s_env sm) ++ added
        /\ Forall component_noise added)
  /\ (keys_ok (labels (s_env sm)) -> keys_ok (labels (s_env sm')))
  /\ (Forall (fun c => starts_hash c = false) l ->
      labels (s_env sm') = labels (s_env sm)).
Proof.
  induction l as [|c l IH]; intros sm sm'; cbn [fold_left].
  - intros [= <-]. split; [reflexivity|]. split; [|split; [auto|reflexivity]].
    exists []. split; [now rewrite app_nil_r|constructor].
  - destruct (component_step ParseFloat unrepresentable statType (Some sm) c)
      as [sm1|] eqn:C.
    + intros F. apply component_step_effect in C as (E1 & (a1 & T1 & N1) & K1 & L1).
      apply IH in F as (E2 & (a2 & T2 & N2) & K2 & L2).
      split; [congruence|]. split; [|split; [auto|]].
      * exists (a1 ++ a2). split; [now rewrite T2, T1, <- app_assoc|].
        apply Forall_app; auto.
      * intros H. inversion H; subst. rewrite L2, L1; auto.
    + rewrite fold_left_None; [discriminate|]. intros x. reflexivity.
Qed.

End SampleEffects.

(** ** Substrings without [|#] *)

Lemma Index_lb s p : -1 <= strings.Index s p.
Proof.
  induction s as [|c s IH]; cbn [strings.Index].
  - destruct (strings.HasPrefix [] p); lia.
  - destruct (strings.HasPrefix (c :: s) p); [lia|].
    destruct (Z.ltb_spec (strings.Index s p) 0); lia.
Qed.

Lemma Contains_cons c s p :
  strings.Contains (c :: s) p
  = strings.HasPrefix (c :: s) p || strings.Contains s p.
Proof.
  unfold strings.Contains. cbn [strings.Index].
  destruct (strings.HasPrefix (c :: s) p); [reflexivity|]. cbn [orb].
  pose proof (Index_lb s p).
  destruct (Z.ltb_spec (strings.Index s p) 0) as [L|L].
  - symmetry. apply Z.leb_gt. exact L.
  - transitivity true; [|symmetry]; apply Z.leb_le; lia.
Qed.

Lemma hd_Split_hash s sep :
  starts_hash (hd [] (strings.Split s sep)) = true -> starts_hash s = true.
Proof.
  destruct s as [|c s]; cbn [strings.Split]; [easy|].
  destruct (Ascii.eqb c sep); [easy|].
  destruct (strings.Split s sep); easy.
Qed.

Lemma eqb_byteval (a b : ascii) : Ascii.eqb a b = (byteval b =? byteval a).
Proof.
  destruct (Ascii.eqb_spec a b) as [->|N].
  - now rewrite Z.eqb_refl.
  - symmetry. apply Z.eqb_neq. intros E. apply N. symmetry.
    now apply byteval_inj.
Qed.

Lemma Contains_bar_hash s : strings.Contains s (str "|#") = bar_hash s.
Proof.
  induction s as [|a t IH]; [reflexivity|].
  rewrite Contains_cons, IH. cbn [bar_hash]. f_equal.
  cbn [str list_ascii_of_string strings.HasPrefix].
  rewrite eqb_byteval. change (byteval "|"%char) with 124.
  destruct t as [|b t']; cbn [strings.HasPrefix starts_hash].
  - reflexivity.
  - rewrite eqb_byteval. change (byteval "#"%char) with 35.
    destruct t'; cbn [strings.HasPrefix]; now rewrite andb_true_r.
Qed.

Lemma bar_hash_Split_colon rest :
  bar_hash rest = false ->
  Forall (fun x => bar_hash x = false) (strings.Split rest ":"%char).
Proof.
  induction rest as [|c s IH]; cbn [strings.Split bar_hash].
  - intros _. now constructor.
  - intros H. apply orb_false_iff in H as [H1 H2]. specialize (IH H2).
    destruct (Ascii.eqb c ":"%char); [now constructor|].
    pose proof (hd_Split_hash s ":"%char) as Hh.
    destruct (strings.Split s ":"%char) as [|x xs].
    { constructor; [|constructor]. cbn. now rewrite andb_false_r. }
    inversion IH as [|? ? Hx Hxs]; subst. constructor; [|exact Hxs].
    cbn [bar_hash]. rewrite Hx, orb_false_r.
    destruct (starts_hash x) eqn:Sx; [|apply andb_false_r].
    cbn [hd] in Hh. rewrite (Hh Sx) in H1. exact H1.
Qed.

Lemma bar_hash_Split_bar s :
  bar_hash s = false ->
  Forall (fun c => starts_hash c = false) (tl (strings.Split s "|"%char)).
Proof.
  induction s as [|c s IH]; cbn [strings.Split bar_hash tl].
  - intros _. constructor.
  - intros H. apply orb_false_iff in H as [H1 H2]. specialize (IH H2).
    pose proof (hd_Split_hash s "|"%char) as Hh.
    rewrite eqb_byteval. change (byteval "|"%char) with 124.
    destruct (Z.eqb_spec 124 (byteval c)) as [E|N].
    + cbn [tl]. destruct (strings.Split s "|"%char) as [|x xs];
        [constructor|].
      cbn [tl hd] in *. constructor; [|exact IH].
      destruct (starts_hash x) eqn:Sx; [|reflexivity].
      rewrite (Hh eq_refl), <- E in H1. discriminate.
    + destruct (strings.Split s "|"%char) as [|x xs]; [constructor|].
      exact IH.
Qed.

Lemma Forall_tl_skipn2 {A} (P : A -> Prop) (l : list A) :
  Forall P (tl l) -> Forall P (skipn 2 l).
Proof.
  destruct l as [|a [|b l]]; cbn; auto.
  intros H. now inversion H.
Qed.

(** ** The parser does not read the events and counters it has written *)

Lemma prefixed_inc evs log m st :
  inc m (prefixed evs log st) = prefixed evs log (inc m st).
Proof. unfold inc, prefixed. cbn. now rewrite app_assoc. Qed.

Lemma prefixed_set_label evs log k v st :
  set_label k v (prefixed evs log st) = prefixed evs log (set_label k v st).
Proof. reflexivity. Qed.


Lemma prefixed_nil st : prefixed [] [] st = st.
Proof. now destruct st. Qed.


Lemma parseTag_prefixed evs log tag sep st :
  parseTag tag sep (prefixed evs log st)
  = prefixed evs log <$> parseTag tag sep st.
Proof.
  unfold parseTag.
  destruct (len tag =? 0); [cbn; now rewrite prefixed_inc|].
  destruct (find _ _); [|cbn; now rewrite prefixed_inc].
  destruct (slice_to _ _); [|reflexivity].
  destruct (slice_from _ _); [|reflexivity].
  cbn [mbind option_bind].
  destruct (_ || _); [cbn; now rewrite prefixed_inc|].
  destruct (escapeMetricName _); reflexivity.
Qed.

Lemma each_tag_prefixed h evs log :
  (forall tag st, h tag (prefixed evs log st) = prefixed evs log <$> h tag st) ->
  forall l st,
    fold_left (each_tag h) l (Some (prefixed evs log st))
    = prefixed evs log <$> fold_left (each_tag h) l (Some st).
Proof.
  intros H l. induction l as [|tag l IH]; intros st; cbn [fold_left].
  - reflexivity.
  - unfold each_tag at 2 4. cbn [mbind option_bind]. rewrite H.
    destruct (h tag st) as [st1|]; cbn.
    + apply IH.
    + now rewrite each_tag_None.
Qed.

Lemma parseNameTags_prefixed evs log component st :
  parseNameTags component (prefixed evs log st)
  = prefixed evs log <$> parseNameTags component st.
Proof.
  rewrite !parseNameTags_pieces. apply each_tag_prefixed.
  intros tag st0. apply parseTag_prefixed.
Qed.


Section Frame.

Variable ParseFloat : gostring -> float * bool.
Variable unrepresentable : float -> Z.





End Frame.

(** ** The samples of a line, each on its own *)

Lemma Valid_app a b : Valid a -> Valid b -> Valid (a ++ b).
Proof.
  intros Va Vb. induction Va; cbn [app]; try (constructor; assumption).
  exact Vb.
Qed.

Lemma emit_labels n statType metric value relative st :
  labels (emit n statType metric value relative st) = labels st.
Proof. apply (emit_effect n statType metric value relative st). Qed.

Section Decompose.

Variable ParseFloat : gostring -> float * bool.
Variable unrepresentable : float -> Z.


Lemma sample_step_labels metric st sample st' :
  sample_step ParseFloat unrepresentable metric (Some st) sample = Some st' ->
  bar_hash sample = false ->
  labels st' = labels st.
Proof.
  intros S B. apply bar_hash_Split_bar, Forall_tl_skipn2 in B.
  revert S. unfold sample_step. cbn [mbind option_bind]. cbv zeta.
  destruct (_ || _); [now intros [= <-]|].
  destruct (nth_error _ 0) as [valueStr|]; [|discriminate].
  destruct (nth_error _ 1) as [statType|]; [|discriminate].
  cbn [mbind option_bind].
  destruct (ParseFloat valueStr) as [value [|]]; [now intros [= <-]|].
  destruct (_ && _); [now intros [= <-]|].
  destruct (3 <=? _).
  - destruct (fold_left _ _ _) as [sm|] eqn:F; [|discriminate].
    cbn [mbind option_bind]. intros [= <-].
    apply components_effect in F as (_ & _ & _ & L). specialize (L B).
    cbn [s_env] in L.
    rewrite emit_labels.
    destruct (0 <? _); cbn [inc labels]; exact L.
  - cbn [mbind option_bind]. intros [= <-]. cbn [s_env s_value s_multiplyEvents].
    destruct (0 <? _); destruct (buildEvent _ _ _ _ _); reflexivity.
Qed.



End Decompose.

(** ** Which samples are dropped *)





Section Passed.

Variable ParseFloat : gostring -> float * bool.
Variable unrepresentable : float -> Z.

(** A sample that passes the tests on its components and value. *)
Lemma sample_step_passed metric st sample v t rest value :
  strings.Split sample "|"%char = v :: t :: rest -> len rest <= 2 ->
  ParseFloat v = (value, false) ->
  existsb (fun component => len component =? 0) rest = false ->
  sample_step ParseFloat unrepresentable metric (Some st) sample
  = (sm ← fold_left (component_step ParseFloat unrepresentable t) rest
                    (Some (Sampler value 1 (inc samplesReceived st)));
     Some (emit (Z.to_nat (s_multiplyEvents sm)) t metric (s_value sm)
                (relative_of v) (tagged (s_env sm)))).
Proof.
  intros S L P E. unfold sample_step. cbn [mbind option_bind]. cbv zeta.
  rewrite S. change (skipn 2 (v :: t :: rest)) with rest.
  rewrite !len_cons. pose proof (len_nonneg rest) as Lr.
  destruct (Z.ltb_spec (len rest + 1 + 1) 2) as [?|_]; [lia|].
  destruct (Z.ltb_spec 4 (len rest + 1 + 1)) as [?|_]; [lia|].
  cbn [orb nth_error mbind option_bind]. rewrite P, E, andb_false_r.
  destruct (Z.leb_spec 3 (len rest + 1 + 1)) as [_|H]; [reflexivity|].
  assert (rest = []) as ->.
  { destruct rest; [reflexivity|]. rewrite len_cons in H. pose proof (len_nonneg rest). lia. }
  reflexivity.
Qed.


Lemma drop_reason_cases sample :
  (exists r, drop_reason ParseFloat sample = Some r
             /\ r <> "illegal_event"%string
             /\ forall metric st,
                  sample_step ParseFloat unrepresentable metric (Some st) sample
                  = Some (inc (sampleErrors r) (inc samplesReceived st)))
  \/ (exists v t rest value,
        strings.Split sample "|"%char = v :: t :: rest /\ len rest <= 2
        /\ ParseFloat v = (value, false)
        /\ existsb (fun component => len component =? 0) rest = false
        /\ drop_reason ParseFloat sample
           = if supported t then None else Some "illegal_event"%string).
Proof.
  unfold drop_reason, sample_step. cbn [mbind option_bind]. cbv zeta.
  destruct ((len (strings.Split sample "|") <? 2)
            || (4 <? len (strings.Split sample "|"))) eqn:L.
  { left. exists "malformed_component"%string.
    split; [reflexivity|]. split; [discriminate|]. reflexivity. }
  apply orb_false_iff in L as [L1 L2].
  apply Z.ltb_ge in L1. apply Z.ltb_ge in L2.
  destruct (strings.Split sample "|") as [|v [|t rest] ] eqn:S;
    [rewrite len_nil in L1; lia | rewrite len_cons, len_nil in L1; lia|].
  change (skipn 2 (v :: t :: rest)) with rest.
  cbn [nth_error nth mbind option_bind].
  rewrite !len_cons in L1, L2 |- *.
  destruct (ParseFloat v) as [value err] eqn:P. cbn [snd].
  destruct err.
  { left. exists "malformed_value"%string.
    split; [reflexivity|]. split; [discriminate|]. reflexivity. }
  destruct (existsb _ rest) eqn:E.
  { left. exists "malformed_component"%string.
    split; [reflexivity|]. split; [discriminate|].
    intros metric st. destruct rest as [|c rest]; [discriminate|].
    rewrite !len_cons. pose proof (len_nonneg rest).
    destruct (Z.leb_spec 3 (len rest + 1 + 1 + 1)); [reflexivity|lia]. }
  right. exists v, t, rest, value.
  split; [reflexivity|]. split; [lia|]. split; [exact P|].
  split; [exact E|]. reflexivity.
Qed.



Lemma tagged_telemetry st :
  exists tags, telemetry (tagged st) = telemetry st ++ tags
               /\ Forall (fun m => m = tagsReceived) tags.
Proof.
  unfold tagged. destruct (0 <? _).
  - exists [tagsReceived]. split; [reflexivity|]. now constructor.
  - exists []. split; [now rewrite app_nil_r|constructor].
Qed.






End Passed.

(** ** The line parser: dropped and kept samples *)

Section Lines.

Variable ParseFloat : gostring -> float * bool.
Variable unrepresentable : float -> Z.


End Lines.

Section LineClaims.

Variable ParseFloat : gostring -> float * bool.
Variable unrepresentable : float -> Z.



End LineClaims.




Example drop_reason_value :
  drop_reason ParseFloat_decimal (str "abc|c") = Some "malformed_value"%string.
Proof. reflexivity. Qed.

Example drop_reason_type :
  drop_reason ParseFloat_decimal (str "1|x|@0.5") = Some "illegal_event"%string.
Proof. reflexivity. Qed.

Example drop_reason_kept :
  drop_reason ParseFloat_decimal (str "1|c|bar") = None.
Proof. reflexivity. Qed.

Example line_three_samples :
  lineToEvents ParseFloat_decimal (fun _ => 0) (str "foo:1|c:abc|c:2|x:3|g")
  = Some ([CounterEvent (str "foo") 1 ∅; GaugeEvent (str "foo") 3 false ∅],
          [samplesReceived; samplesReceived; sampleErrors "malformed_value";
           samplesReceived; sampleErrors "illegal_event"; samplesReceived]).
Proof. vm_compute. reflexivity. Qed.

(** * Further properties of the parser and of the exporter *)

(** X2. On every name that is valid UTF-8 [escapeMetricName] returns, and
    what it returns is a fixed point: a second call returns it
    unchanged, and it is valid UTF-8 again. *)
Theorem escapeMetricName_idempotent_valid_utf8 (n : gostring) :
  utf8.ValidString n = true ->
  exists r,
    escapeMetricName n = Some r
    /\ escapeMetricName r = Some r
    /\ utf8.ValidString r = true.
Proof.
  intros V. apply ValidString_Valid in V.
  pose proof (escape_valid n V) as E. exists (escape_spec n).
  destruct (escape_result _ _ E) as [H N].
  split; [exact E|]. split; [now apply escape_fixed|].
  apply Valid_ValidString. clear -H.
  induction H as [|b r Hb _ IH]; constructor; [|exact IH].
  unfold ident, valid_char in Hb. pose proof (byteval_range b). lia.
Qed.

Lemma escapeMetricName_idempotent_valid_utf8_witness :
  utf8.ValidString (str "1st.café") = true
  /\ exists r,
       escapeMetricName (str "1st.café") = Some r
       /\ escapeMetricName r = Some r
       /\ utf8.ValidString r = true.
Proof.
  split; [vm_compute; reflexivity|].
  apply (escapeMetricName_idempotent_valid_utf8 (str "1st.café")).
  vm_compute. reflexivity.
Defined.

(** X3. [parseNameAndTags] cuts the name part of a line at its first [#]
    or [,]: what stands before is the metric name, returned as it is,
    and what stands after is handed to [parseNameTags]; a name part
    without [#] and [,] is the metric name and nothing else happens. *)
Theorem parseNameAndTags_first_delimiter :
  (forall name st,
     ~ In "#"%char name -> ~ In ","%char name ->
     parseNameAndTags name st = Some (name, st))
  /\ (forall m c tags st,
        c = "#"%char \/ c = ","%char ->
        ~ In "#"%char m -> ~ In ","%char m ->
        parseNameAndTags (m ++ c :: tags) st
        = (st' ← parseNameTags tags st; Some (m, st'))).
Proof.
  split.
  - intros name st. apply parseNameAndTags_plain.
  - intros m c tags st. apply parseNameAndTags_cut.
Qed.

(** X4. [parseTag] cuts a tag at the first occurrence of its separator
    (an ASCII byte): the key before it is escaped, the value after it is
    kept as it is, further separators included.  A tag without
    separator, and a tag whose key or value is empty, set no label and
    count [tag_errors] once. *)
Theorem parseTag_first_separator (b : ascii) :
  byteval b < 0x80 ->
  (forall tag st,
     ~ In b tag -> parseTag tag (byteval b) st = Some (inc tagErrors st))
  /\ (forall k v st,
        ~ In b k ->
        parseTag (k ++ b :: v) (byteval b) st
        = if (len k =? 0) || (len v =? 0) then Some (inc tagErrors st)
          else k' ← escapeMetricName k; Some (set_label k' v st)).
Proof.
  intros A. split.
  - intros tag st. now apply parseTag_no_separator.
  - intros k v st. now apply parseTag_cut.
Qed.

Lemma parseTag_first_separator_witness :
  byteval "="%char < 0x80
  /\ parseTag (str "host.name=a=b") 61 (Env ∅ [] [])
     = Some (Env (<[str "host_name" := str "a=b"]> ∅) [] []).
Proof.
  split; [reflexivity|].
  destruct (parseTag_first_separator "="%char ltac:(reflexivity)) as [_ H].
  refine (eq_trans (H (str "host.name") (str "a=b") (Env ∅ [] []) _) _).
  - intros I. repeat (destruct I as [I|I]; [discriminate|]). exact I.
  - reflexivity.
Defined.

Lemma trimLeftHash_strips s :
  trimLeftHash s = Some (if starts_hash s then tl s else s).
Proof.
  unfold trimLeftHash, streq. destruct s as [|b s]; [reflexivity|].
  rewrite bool_decide_eq_false_2 by discriminate. cbn [negb].
  rewrite byte_at_0. cbn [mbind option_bind starts_hash tl].
  destruct (byteval b =? 35); [|reflexivity].
  change (b :: s) with ([b] ++ s). change 1 with (len [b]).
  apply slice_from_app.
Qed.

(** X5. [parseNameTags] handles the tags of its component one by one from
    left to right, each with [parseTag] and the separator [=]: the tags
    are the pieces between the commas, and an empty piece after the last
    comma is no tag. *)
Theorem parseNameTags_tag_by_tag (component : gostring) (st : env) :
  parseNameTags component st
  = fold_left (each_tag (fun tag st => parseTag tag 61 st))
              (tags_of component) (Some st).
Proof. apply parseNameTags_pieces. Qed.

(** X6. [parseDogStatsDTags] handles the tags of its component one by one
    from left to right: the tags are the pieces between the commas, an
    empty piece after the last comma being no tag; each loses one
    leading [#], if it has one, and goes to [parseTag] with the
    separator [:]. *)
Theorem parseDogStatsDTags_tag_by_tag (component : gostring) (st : env) :
  parseDogStatsDTags component st
  = fold_left
      (each_tag (fun tag st =>
                   parseTag (if starts_hash tag then tl tag else tag) 58 st))
      (tags_of component) (Some st).
Proof.
  rewrite parseDogStatsDTags_pieces. apply fold_left_pointwise.
  intros [acc|] tag; [|reflexivity]. unfold each_tag.
  cbn [mbind option_bind]. now rewrite trimLeftHash_strips.
Qed.

Example tags_of_example :
  tags_of (str "a=1,,b=2,") = [str "a=1"; []; str "b=2"].
Proof. reflexivity. Qed.

(** ** The events and counters of a line *)

Lemma before_all P s :
  Forall (fun b => P b = false) s -> before P s = s.
Proof.
  induction 1 as [|b s Hb _ IH]; [reflexivity|].
  cbn [before]. now rewrite Hb, IH.
Qed.

Lemma before_cut P a b c :
  Forall (fun x => P x = false) a -> P b = true ->
  before P (a ++ b :: c) = a.
Proof.
  intros Ha Hb. induction Ha as [|x a Hx _ IH]; cbn [app before].
  - now rewrite Hb.
  - now rewrite Hx, IH.
Qed.

Lemma first_delimiter (name : gostring) :
  (~ In "#"%char name /\ ~ In ","%char name)
  \/ exists m c tags,
       name = m ++ c :: tags /\ (c = "#"%char \/ c = ","%char)
       /\ ~ In "#"%char m /\ ~ In ","%char m.
Proof.
  induction name as [|b name IH].
  - left. split; intros [].
  - destruct (ascii_dec b "#"%char) as [->|N1].
    { right. exists [], "#"%char, name. repeat split; auto; intros []. }
    destruct (ascii_dec b ","%char) as [->|N2].
    { right. exists [], ","%char, name. repeat split; auto; intros []. }
    destruct IH as [[H1 H2] | (m & c & tags & -> & Hc & H1 & H2)].
    + left. split; intros [?|?]; auto.
    + right. exists (b :: m), c, tags. repeat split; auto;
        intros [?|?]; auto.
Qed.

Lemma not_In_name_end (s : gostring) :
  ~ In ":"%char s -> ~ In "#"%char s -> ~ In ","%char s ->
  Forall (fun b => name_end b = false) s.
Proof.
  intros H1 H2 H3. apply List.Forall_forall. intros b I. unfold name_end.
  destruct (Ascii.eqb_spec b ":"%char) as [->|_]; [contradiction|].
  destruct (Ascii.eqb_spec b "#"%char) as [->|_]; [contradiction|].
  destruct (Ascii.eqb_spec b ","%char) as [->|_]; [contradiction|].
  reflexivity.
Qed.

Lemma parseNameAndTags_metric name st metric st' :
  ~ In ":"%char name ->
  parseNameAndTags name st = Some (metric, st') ->
  metric = before name_end name.
Proof.
  intros NC P.
  destruct (first_delimiter name) as [[H1 H2] | (m & c & tags & -> & Hc & H1 & H2)].
  - rewrite parseNameAndTags_plain in P by assumption. injection P as <- _.
    symmetry. apply before_all. now apply not_In_name_end.
  - rewrite parseNameAndTags_cut in P by assumption.
    destruct (parseNameTags tags st); [|discriminate].
    injection P as <- _. symmetry. apply before_cut.
    + apply not_In_name_end; auto. intros I. apply NC.
      apply in_or_app. now left.
    + unfold name_end. destruct Hc as [-> | ->]; reflexivity.
Qed.

Lemma lineToEvents_cases (line : gostring) :
  line = []
  \/ (line <> [] /\ malformed_line line)
  \/ exists name rest metric st,
       line = name ++ str ":" ++ rest /\ name <> [] /\ ~ In ":"%char name
       /\ utf8.ValidString line = true
       /\ parseNameAndTags name (Env ∅ [] []) = Some (metric, st).
Proof.
  destruct line as [|b0 line0]; [now left|]. right.
  set (line := b0 :: line0). assert (NE : line <> []) by discriminate.
  destruct (Split_SplitN2 line ":"%char) as [H1 H2].
  destruct (SplitN2_cases line ":"%char) as [[S _] | (a & b & S & E & NC)].
  - left. split; [exact NE|]. left. apply H2. rewrite S. reflexivity.
  - destruct a as [|a0 a].
    { left. split; [exact NE|]. right. left. rewrite H1, S. reflexivity. }
    destruct (utf8.ValidString line) eqn:V.
    + right. pose proof (ValidString_Valid _ V) as Vl. rewrite E in Vl.
      apply Valid_cut in Vl as [Va _]; [|reflexivity].
      destruct (parseNameAndTags_total (a0 :: a) (Env ∅ [] []) Va)
        as (metric & st & P).
      exists (a0 :: a), b, metric, st. repeat split; auto; discriminate.
    + left. split; [exact NE|]. right. now right.
Qed.

Lemma count_cons m x l :
  count m (x :: l) = ((if bool_decide (x = m) then 1 else 0) + count m l)%nat.
Proof.
  unfold count. cbn [List.filter]. destruct (bool_decide (x = m)); reflexivity.
Qed.

Lemma count_none m l : Forall (fun x => x <> m) l -> count m l = 0%nat.
Proof.
  induction 1 as [|x l Hx _ IH]; [reflexivity|].
  now rewrite count_cons, bool_decide_eq_false_2, IH.
Qed.

Section Shape.

Variable ParseFloat : gostring -> float * bool.
Variable unrepresentable : float -> Z.

(** What one sample leaves behind. *)
Lemma sample_step_shape metric st sample st' :
  sample_step ParseFloat unrepresentable metric (Some st) sample = Some st' ->
  (exists new,
     events st' = events st ++ new
     /\ Forall (fun ev => MetricName ev = metric
                          /\ EventLabels ev = labels st') new)
  /\ (keys_ok (labels st) -> keys_ok (labels st'))
  /\ exists added,
       telemetry st' = telemetry st ++ samplesReceived :: added
       /\ Forall parser_counter added
       /\ Forall (fun m => m <> samplesReceived) added.
Proof.
  intros S.
  destruct (drop_reason_cases ParseFloat unrepresentable sample)
    as [(r & _ & _ & D) | (v & t & rest & value & Sp & Lr & P & E & _)].
  - rewrite D in S. injection S as <-. cbn [inc events telemetry labels].
    split; [exists []; split; [now rewrite app_nil_r|constructor] |].
    split; [auto|]. exists [sampleErrors r].
    split; [now rewrite <- app_assoc|].
    split; (constructor; [|constructor]); [|discriminate].
    right. right. right. now exists r.
  - rewrite (sample_step_passed ParseFloat unrepresentable metric st sample
               v t rest value Sp Lr P E) in S.
    destruct (fold_left _ rest _) as [sm|] eqn:F; [|discriminate].
    cbn [mbind option_bind] in S. injection S as <-.
    apply components_effect in F as (Ev & (added & T & N) & K & _).
    cbn [s_env inc events telemetry labels] in Ev, T, K.
    destruct (emit_effect (Z.to_nat (s_multiplyEvents sm)) t metric
                (s_value sm) (relative_of v) (tagged (s_env sm)))
      as (L & (k & Tk) & new & En & Fn).
    rewrite labels_tagged in L, Fn. rewrite events_tagged in En.
    split; [|split].
    + exists new. split; [now rewrite En, Ev|]. now rewrite L.
    + intros H. rewrite L. auto.
    + destruct (tagged_telemetry (s_env sm)) as (tags & Tt & Ft).
      exists (added ++ tags ++ repeat (sampleErrors "illegal_event") k).
      split; [rewrite Tk, Tt, T, <- !app_assoc; reflexivity|].
      split; repeat apply Forall_app_2.
      * eapply List.Forall_impl; [|exact N].
        intros m [-> | ->]; [right; right; now left|].
        right. right. right. now eexists.
      * eapply List.Forall_impl; [|exact Ft]. intros m ->. right. now left.
      * apply Forall_repeat. right. right. right. now eexists.
      * eapply List.Forall_impl; [|exact N]. intros m [-> | ->]; discriminate.
      * eapply List.Forall_impl; [|exact Ft]. intros m ->. discriminate.
      * apply Forall_repeat. discriminate.
Qed.

(** What the samples of a line without DogStatsD tags leave behind. *)
Lemma samples_shape metric l : forall st st',
  fold_left (sample_step ParseFloat unrepresentable metric) l (Some st)
  = Some st' ->
  Forall (fun s => bar_hash s = false) l ->
  labels st' = labels st
  /\ (exists new,
        events st' = events st ++ new
        /\ Forall (fun ev => MetricName ev = metric
                             /\ EventLabels ev = labels st) new)
  /\ exists added,
       telemetry st' = telemetry st ++ added
       /\ Forall parser_counter added
       /\ count samplesReceived added = length l.
Proof.
  induction l as [|s l IH]; intros st st'; cbn [fold_left].
  - intros [= <-] _. split; [reflexivity|].
    split; exists []; rewrite app_nil_r; repeat split; constructor.
  - intros F B. inversion B as [|? ? Bs Bl]; subst.
    destruct (sample_step ParseFloat unrepresentable metric (Some st) s)
      as [st1|] eqn:S.
    2:{ rewrite fold_left_None in F; [discriminate|]. intros x. reflexivity. }
    pose proof (sample_step_labels _ _ _ _ _ _ S Bs) as L1.
    apply sample_step_shape in S
      as ((new1 & E1 & F1) & _ & added1 & T1 & P1 & N1).
    destruct (IH _ _ F Bl) as (L2 & (new2 & E2 & F2) & added2 & T2 & P2 & C2).
    split; [congruence|]. split.
    + exists (new1 ++ new2). split; [now rewrite E2, E1, <- app_assoc|].
      apply Forall_app_2.
      * now rewrite <- L1.
      * now rewrite <- L1.
    + exists (samplesReceived :: added1 ++ added2).
      split; [rewrite T2, T1, <- app_assoc; reflexivity|]. split.
      * constructor; [now left|]. now apply Forall_app_2.
      * rewrite count_cons, bool_decide_eq_true_2, count_app by reflexivity.
        rewrite (count_none _ added1), C2; [reflexivity|exact N1].
Qed.

End Shape.

Lemma parseNameAndTags_shape name metric st :
  parseNameAndTags name (Env ∅ [] []) = Some (metric, st) ->
  events st = [] /\ keys_ok (labels st)
  /\ Forall parser_counter (telemetry st)
  /\ count samplesReceived (telemetry st) = 0%nat.
Proof.
  intros P. apply parseNameAndTags_effect in P as (E & (n & T) & K).
  cbn [events telemetry labels app] in E, T, K.
  split; [exact E|]. split; [apply K, keys_ok_empty|]. rewrite T. split.
  - apply Forall_repeat. right. right. now left.
  - apply count_repeat_other. discriminate.
Qed.

Section LineShape.

Variable ParseFloat : gostring -> float * bool.
Variable unrepresentable : float -> Z.

(** The result of a line that passes the test for malformed lines. *)
Lemma lineToEvents_parsed name rest metric st :
  name <> [] -> ~ In ":"%char name ->
  utf8.ValidString (name ++ str ":" ++ rest) = true ->
  parseNameAndTags name (Env ∅ [] []) = Some (metric, st) ->
  exists evs log L,
    lineToEvents ParseFloat unrepresentable (name ++ str ":" ++ rest)
    = Some (evs, log)
    /\ keys_ok L
    /\ Forall (fun ev => MetricName ev = metric /\ EventLabels ev = L) evs
    /\ Forall parser_counter log
    /\ ((strings.Contains rest (str "|#") = true -> size (labels st) = 0%nat) ->
        count samplesReceived log = length (samples_of rest)).
Proof.
  intros N NC V P.
  pose proof (parseNameAndTags_shape _ _ _ P) as (Ev & K & Pc & C0).
  change (name ++ str ":" ++ rest) with (name ++ ":"%char :: rest) in *.
  pose proof (ValidString_Valid _ V) as Vl.
  apply Valid_cut in Vl as [_ Vr]; [|reflexivity].
  unfold lineToEvents, streq.
  rewrite bool_decide_eq_false_2 by (destruct name; [easy | discriminate]).
  rewrite SplitN2_app by exact NC. rewrite V.
  destruct (Z.eqb_spec (len name) 0) as [E|_];
    [apply len_zero in E; contradiction|].
  cbn [orb negb]. rewrite P. cbn [mbind option_bind].
  unfold samples_of.
  destruct (strings.Contains rest (str "|#")) eqn:C.
  - destruct (Z.ltb_spec 0 (Z.of_nat (size (labels st)))) as [Hs|Hs].
    + exists [], (telemetry st ++ [sampleErrors "mixed_tagging_styles"]), ∅.
      split; [reflexivity|]. split; [apply keys_ok_empty|].
      split; [constructor|]. split.
      * apply Forall_app_2; [exact Pc|]. constructor; [|constructor].
        right. right. right. now eexists.
      * intros M. specialize (M eq_refl). lia.
    + cbn [fold_left].
      destruct (sample_step_total ParseFloat unrepresentable metric st rest Vr)
        as [st' S].
      rewrite S. cbn [mbind option_bind].
      apply sample_step_shape in S
        as ((new & E1 & F1) & K1 & added & T1 & P1 & N1).
      exists (events st'), (telemetry st'), (labels st').
      split; [reflexivity|]. split; [auto|].
      split; [rewrite E1, Ev; exact F1|]. split.
      * rewrite T1. apply Forall_app_2; [exact Pc|].
        constructor; [now left|exact P1].
      * intros _. rewrite T1, count_app, C0, count_cons,
          bool_decide_eq_true_2, (count_none _ added) by auto. reflexivity.
  - destruct (samples_total ParseFloat unrepresentable metric
                (strings.Split rest ":"%char)
                (Valid_Split rest ":"%char Vr ltac:(reflexivity)) st)
      as [st' S].
    rewrite S. cbn [mbind option_bind].
    apply samples_shape in S
      as (L1 & (new & E1 & F1) & added & T1 & P1 & C1).
    2:{ apply bar_hash_Split_colon. now rewrite <- Contains_bar_hash. }
    exists (events st'), (telemetry st'), (labels st).
    split; [reflexivity|]. split; [exact K|].
    split; [rewrite E1, Ev; exact F1|]. split.
    + rewrite T1. now apply Forall_app_2.
    + intros _. now rewrite T1, count_app, C0, C1.
Qed.

(** X7. Every line gives its events, and they agree on a metric name and
    on a label set: the name is what stands in the line before its first
    [:], [#] or [,]; the keys of the labels are identifiers
    [[A-Za-z_][A-Za-z0-9_]*] and no value is empty. *)
Theorem lineToEvents_events (line : gostring) :
  exists evs log L,
    lineToEvents ParseFloat unrepresentable line = Some (evs, log)
    /\ keys_ok L
    /\ Forall (fun ev => MetricName ev = metric_of line
                         /\ EventLabels ev = L) evs.
Proof.
  destruct (lineToEvents_cases line)
    as [-> | [[N M] | (name & rest & metric & st & -> & N & NC & V & P)] ].
  - exists [], [], ∅. split; [reflexivity|].
    split; [apply keys_ok_empty|constructor].
  - exists [], [sampleErrors "malformed_line"], ∅.
    split; [now apply lineToEvents_malformed|].
    split; [apply keys_ok_empty|constructor].
  - destruct (lineToEvents_parsed name rest metric st N NC V P)
      as (evs & log & L & E & K & F & _).
    exists evs, log, L. split; [exact E|]. split; [exact K|].
    assert (M : metric_of (name ++ str ":" ++ rest) = metric).
    { symmetry. rewrite (parseNameAndTags_metric _ _ _ _ NC P).
      unfold metric_of. symmetry.
      destruct (first_delimiter name)
        as [[H1 H2] | (m & c & tags & -> & Hc & H1 & H2)].
      - rewrite (before_all name_end name) by now apply not_In_name_end.
        now apply before_cut; [apply not_In_name_end|].
      - assert (Fm : Forall (fun b => name_end b = false) m).
        { apply not_In_name_end; auto. intros I. apply NC.
          apply in_or_app. now left. }
        assert (Hb : name_end c = true)
          by (destruct Hc as [-> | ->]; reflexivity).
        rewrite <- app_assoc. cbn [app].
        now rewrite !before_cut. }
    now rewrite M.
Qed.

Lemma lineToEvents_log line evs log :
  lineToEvents ParseFloat unrepresentable line = Some (evs, log) ->
  Forall parser_counter log.
Proof.
  intros E.
  destruct (lineToEvents_cases line)
    as [-> | [[N M] | (name & rest & metric & st & -> & N & NC & V & P)] ].
  - cbn in E. injection E as <- <-. constructor.
  - rewrite lineToEvents_malformed in E by assumption.
    injection E as <- <-. constructor; [|constructor].
    right. right. right. now eexists.
  - destruct (lineToEvents_parsed name rest metric st N NC V P)
      as (evs' & log' & L & E' & _ & _ & F & _).
    rewrite E' in E. now injection E as <- <-.
Qed.

(** X8. The line parser touches no counter but [samples_received],
    [tags_received], [tag_errors] and [sample_errors], and a line that is
    parsed counts [samples_received] once for each of its samples: once
    when the line holds DogStatsD tags, once for each colon-separated
    piece after the name otherwise. *)
Theorem lineToEvents_counters :
  (forall line evs log,
     lineToEvents ParseFloat unrepresentable line = Some (evs, log) ->
     Forall parser_counter log)
  /\ (forall name rest metric st evs log,
        name <> [] -> ~ In ":"%char name ->
        utf8.ValidString (name ++ str ":" ++ rest) = true ->
        parseNameAndTags name (Env ∅ [] []) = Some (metric, st) ->
        (strings.Contains rest (str "|#") = true ->
         size (labels st) = 0%nat) ->
        lineToEvents ParseFloat unrepresentable (name ++ str ":" ++ rest)
        = Some (evs, log) ->
        count samplesReceived log = length (samples_of rest)).
Proof.
  split.
  - apply lineToEvents_log.
  - intros name rest metric st evs log N NC V P M E.
    destruct (lineToEvents_parsed name rest metric st N NC V P)
      as (evs' & log' & L & E' & _ & _ & _ & C).
    rewrite E' in E. injection E as <- <-. exact (C M).
Qed.

End LineShape.

(** ** Packets *)

Lemma parser_counter_not_lines l :
  Forall parser_counter l -> count linesReceived l = 0%nat.
Proof.
  intros F. apply count_none. eapply List.Forall_impl; [|exact F].
  intros m [-> | [-> | [-> | [r ->] ] ] ]; discriminate.
Qed.

Section Packets.

Variable ParseFloat : gostring -> float * bool.
Variable unrepresentable : float -> Z.

Lemma handlePacket_fold l : forall queued log,
  exists batches added,
    fold_left
      (fun acc line =>
         '(queued, log) ← acc;
         '(evs, log') ← lineToEvents ParseFloat unrepresentable line;
         Some (queued ++ [evs], log ++ [linesReceived] ++ log'))
      l (Some (queued, log))
    = Some (queued ++ batches, log ++ added)
    /\ Forall2 (fun line evs =>
                  exists counted,
                    lineToEvents ParseFloat unrepresentable line
                    = Some (evs, counted)) l batches
    /\ count linesReceived added = length l
    /\ Forall (fun m => m = linesReceived \/ parser_counter m) added.
Proof.
  induction l as [|line l IH]; intros queued log; cbn [fold_left].
  - exists [], []. rewrite !app_nil_r. repeat split; constructor.
  - cbn [mbind option_bind].
    destruct (lineToEvents_total ParseFloat unrepresentable line)
      as (evs & counted & E).
    rewrite E. cbn [mbind option_bind].
    destruct (IH (queued ++ [evs]) (log ++ [linesReceived] ++ counted))
      as (batches & added & F & B & C & P).
    pose proof (lineToEvents_log ParseFloat unrepresentable
                  line evs counted E) as Pc.
    exists (evs :: batches), (linesReceived :: counted ++ added).
    split; [rewrite F, <- !app_assoc; reflexivity|].
    split; [constructor; [now exists counted|exact B] |]. split.
    + rewrite count_cons, bool_decide_eq_true_2, count_app by reflexivity.
      rewrite (parser_counter_not_lines _ Pc), C. reflexivity.
    + constructor; [now left|]. apply Forall_app_2; [|exact P].
      eapply List.Forall_impl; [|exact Pc]. intros m H. now right.
Qed.

(** X9. [handlePacket] of the UDP and unixgram listeners counts the packet
    once, first, and queues one batch of events for each line of the
    packet, in the order of the lines: the batch [lineToEvents] gives
    for the line.  It counts [lines_received] once for each line, empty
    lines included, and besides that only the counters of the parser. *)
Theorem handlePacket_lines (first : Metric) (packet : gostring) :
  exists queued log,
    handlePacket ParseFloat unrepresentable first packet
    = Some (queued, first :: log)
    /\ Forall2 (fun line evs =>
                  exists counted,
                    lineToEvents ParseFloat unrepresentable line
                    = Some (evs, counted))
               (strings.Split packet "010"%char) queued
    /\ count linesReceived log = length (strings.Split packet "010"%char)
    /\ Forall (fun m => m = linesReceived \/ parser_counter m) log.
Proof.
  unfold handlePacket.
  destruct (handlePacket_fold (strings.Split packet "010"%char) [] [first])
    as (batches & added & F & B & C & P).
  exists batches, added. split; [exact F|]. auto.
Qed.

End Packets.

Example handlePacket_example :
  handlePacket ParseFloat_decimal (fun _ => 0) udpPackets
               ("f" :: ":" :: "1" :: "|" :: "c" :: "010" :: "g" :: ":"
                    :: "2" :: "|" :: "g" :: "010" :: [])%char
  = Some ([[CounterEvent (str "f") 1 ∅];
           [GaugeEvent (str "g") 2 false ∅]; []],
          [udpPackets; linesReceived; samplesReceived;
           linesReceived; samplesReceived; linesReceived]).
Proof. vm_compute. reflexivity. Qed.

(** ** The exporter: counters, gauges and rejected events *)

Section DispatchMore.

Variable GetMapping :
  gostring -> MetricType -> option MetricMapping * Labels * bool.
Variable Defaults : MapperDefaults.
Variable registry : Type.
Variable collector : Type.
Variable getCounter getGauge getHistogram getSummary :
  registry -> gostring -> Labels -> gostring -> MetricMapping
  -> registry * option collector.

(** X10. A counter event that passes the mapping and whose value is not
    negative is added to the counter the registry gives for the escaped
    name, and counted under [event_stats{counter}]; when the registry
    reports a conflict, nothing is added and the event is counted under
    [conflicting_event_stats{counter}]. *)
Theorem handleEvent_counter
    (b : world registry collector) (name : gostring) (v : float)
    (labels0 labels : Labels) (found : option MetricMapping) (present : bool)
    (metricName : gostring) :
  PrimFloat.ltb v 0 = false ->
  GetMapping name MetricTypeCounter = (found, labels, present) ->
  dispatched (mapping_of Defaults found) present ->
  escapeMetricName (if present then Name (mapping_of Defaults found) else name)
  = Some metricName ->
  let mapping := mapping_of Defaults found in
  let prometheusLabels := if present then labels ∪ labels0 else labels0 in
  handleEvent GetMapping Defaults getCounter getGauge getHistogram getSummary
              b (CounterEvent name v labels0)
  = Some (Returned
            (match getCounter (registry_of b) metricName prometheusLabels
                              (help_of mapping) mapping with
             | (r, Some c) =>
               World r (counters b ++ [action_counter mapping present;
                                       eventStats "counter"])
                     (calls b ++ [Add c v])
             | (r, None) =>
               World r (counters b ++ [action_counter mapping present;
                                       conflictingEventStats "counter"])
                     (calls b)
             end)).
Proof.
  intros Pos G D E mapping prometheusLabels.
  destruct (dispatched_tests _ _ D) as [T1 T2].
  unfold handleEvent. cbn [MetricName EventMetricType].
  rewrite G. fold (mapping_of Defaults found). fold mapping.
  fold mapping in T1, T2, E.
  rewrite T1, T2, E. cbn [mbind option_bind Value EventLabels]. rewrite Pos.
  fold (help_of mapping). fold prometheusLabels.
  unfold update, incr, action_counter.
  destruct present; cbn [registry_of counters calls];
    destruct (getCounter _ _ _ _ _) as [r [c|] ];
    now rewrite <- app_assoc.
Qed.

(** X11. A gauge event that passes the mapping goes to the gauge the
    registry gives for the escaped name: a relative value (one written
    with a sign) is added to it, any other value is set; the event is
    counted under [event_stats{gauge}], or, when the registry reports a
    conflict, under [conflicting_event_stats{gauge}] with no call. *)
Theorem handleEvent_gauge
    (b : world registry collector) (name : gostring) (v : float)
    (relative : bool) (labels0 labels : Labels)
    (found : option MetricMapping) (present : bool) (metricName : gostring) :
  GetMapping name MetricTypeGauge = (found, labels, present) ->
  dispatched (mapping_of Defaults found) present ->
  escapeMetricName (if present then Name (mapping_of Defaults found) else name)
  = Some metricName ->
  let mapping := mapping_of Defaults found in
  let prometheusLabels := if present then labels ∪ labels0 else labels0 in
  handleEvent GetMapping Defaults getCounter getGauge getHistogram getSummary
              b (GaugeEvent name v relative labels0)
  = Some (Returned
            (match getGauge (registry_of b) metricName prometheusLabels
                            (help_of mapping) mapping with
             | (r, Some c) =>
               World r (counters b ++ [action_counter mapping present;
                                       eventStats "gauge"])
                     (calls b ++ [if relative then Add c v else Set_ c v])
             | (r, None) =>
               World r (counters b ++ [action_counter mapping present;
                                       conflictingEventStats "gauge"])
                     (calls b)
             end)).
Proof.
  intros G D E mapping prometheusLabels.
  destruct (dispatched_tests _ _ D) as [T1 T2].
  unfold handleEvent. cbn [MetricName EventMetricType].
  rewrite G. fold (mapping_of Defaults found). fold mapping.
  fold mapping in T1, T2, E.
  rewrite T1, T2, E. cbn [mbind option_bind Value EventLabels].
  fold (help_of mapping). fold prometheusLabels.
  unfold update, incr, action_counter.
  destruct present; cbn [registry_of counters calls];
    destruct (getGauge _ _ _ _ _) as [r [c|] ];
    now rewrite <- app_assoc.
Qed.

(** X12. An event the mapping drops, and an event whose mapping matched
    but names no metric, end before the name is escaped: every kind of
    event is then only counted, under [events_actions{drop}] or under
    [error_event_stats{empty_metric_name}], with no lookup in the registry
    and no call on a metric object. *)
Theorem handleEvent_rejected
    (b : world registry collector) (event : Event)
    (found : option MetricMapping) (labels : Labels) (present : bool) :
  GetMapping (MetricName event) (EventMetricType event)
  = (found, labels, present) ->
  (Action (mapping_of Defaults found) = ActionTypeDrop ->
   handleEvent GetMapping Defaults getCounter getGauge getHistogram getSummary
               b event
   = Some (Returned (incr (eventsActions "drop") b)))
  /\ (Action (mapping_of Defaults found) <> ActionTypeDrop ->
      present = true -> Name (mapping_of Defaults found) = [] ->
      handleEvent GetMapping Defaults getCounter getGauge getHistogram
                  getSummary b event
      = Some (Returned (incr (errorEventStats "empty_metric_name") b))).
Proof.
  intros G. unfold handleEvent. rewrite G. fold (mapping_of Defaults found).
  split.
  - intros A. now rewrite bool_decide_eq_true_2.
  - intros A -> N. rewrite bool_decide_eq_false_2 by exact A.
    rewrite N. reflexivity.
Qed.



End DispatchMore.

Lemma handleEvent_counter_witness :
  PrimFloat.ltb 5 0 = false
  /\ dispatched (mapping_of plain_defaults None) false
  /\ handleEvent no_mapping plain_defaults counting_get counting_get
                 counting_get counting_get (World 0%nat [] [])
                 (CounterEvent (str "foo.bar") 5 ∅)
     = Some (Returned
               (World 1%nat [eventsUnmapped; eventStats "counter"]
                      [Add (str "foo_bar") 5%float])).
Proof.
  assert (D : dispatched (mapping_of plain_defaults None) false)
    by (split; [discriminate | intros [=] ]).
  split; [reflexivity|]. split; [exact D|].
  exact (handleEvent_counter no_mapping plain_defaults nat gostring
           counting_get counting_get counting_get counting_get
           (World 0%nat [] []) (str "foo.bar") 5%float ∅ ∅ None false
           (str "foo_bar") eq_refl eq_refl D eq_refl).
Defined.

Lemma handleEvent_gauge_witness :
  dispatched (mapping_of plain_defaults None) false
  /\ handleEvent no_mapping plain_defaults counting_get counting_get
                 counting_get counting_get (World 0%nat [] [])
                 (GaugeEvent (str "foo") 3 true ∅)
     = Some (Returned
               (World 1%nat [eventsUnmapped; eventStats "gauge"]
                      [Add (str "foo") 3%float])).
Proof.
  assert (D : dispatched (mapping_of plain_defaults None) false)
    by (split; [discriminate | intros [=] ]).
  split; [exact D|].
  exact (handleEvent_gauge no_mapping plain_defaults nat gostring
           counting_get counting_get counting_get counting_get
           (World 0%nat [] []) (str "foo") 3%float true ∅ ∅ None false
           (str "foo") eq_refl D eq_refl).
Defined.

Lemma handleEvent_rejected_witness :
  handleEvent drop_all plain_defaults counting_get counting_get
              counting_get counting_get (World 0%nat [] [])
              (CounterEvent (str "foo") (-1) ∅)
  = Some (Returned (World 0%nat [eventsActions "drop"] [])).
Proof.
  exact (proj1 (handleEvent_rejected drop_all plain_defaults nat gostring
                  counting_get counting_get counting_get counting_get
                  (World 0%nat [] []) (CounterEvent (str "foo") (-1) ∅)
                  _ ∅ true eq_refl) eq_refl).
Defined.
